(** * clangd-mcp-server: the diagnostics cache, the two-phase hierarchy
      fetcher and the open-document tracker

    A shallow embedding of
      - [src/utils/hierarchy-helper.ts]  (fetchTwoPhaseHierarchy),
      - [src/tools/get-diagnostics.ts]   (class DiagnosticsCache),
      - the open-document tracker described in section 4.4 of the design
        document (its implementation file is not part of the sources at hand),
    followed by the properties established about them.

    Part I holds the definitions, Part II the theorems. *)

From stdpp Require Import gmap strings list fin_maps pretty.

Set Warnings "-register-all".

Open Scope string_scope.
Open Scope list_scope.
Open Scope Z_scope.

(* ===================================================================== *)
(** * Part I.  Definitions                                                *)
(* ===================================================================== *)

(** ** JavaScript values, as far as the modelled code inspects them *)

Module JS.

(** What a JSON-RPC payload can be.  Numbers are the integer-valued ones
    (line numbers, error codes, symbol kinds). *)
Inductive value : Type :=
| VNull
| VUndefined
| VBool (b : bool)
| VNum (n : Z)
| VStr (s : string)
| VArr (items : list value)
| VObj (fields : list (string * value)).

(** [!!v] in JavaScript: null, undefined, false, 0 and the empty string are
    falsy; every array and every object (also an empty one) is truthy. *)
Definition truthy (v : value) : bool :=
  match v with
  | VNull | VUndefined => false
  | VBool b => b
  | VNum n => negb (n =? 0)
  | VStr s => negb (String.eqb s "")
  | VArr _ | VObj _ => true
  end.

(** [Array.isArray(v)] *)
Definition isArray (v : value) : bool :=
  match v with VArr _ => true | _ => false end.

(** [v.length] of an array (only used under [Array.isArray]). *)
Definition arrayLength (v : value) : nat :=
  match v with VArr l => length l | _ => O end.

(** [v[0]]: the first element, [undefined] when there is none. *)
Definition index0 (v : value) : value :=
  match v with
  | VArr (x :: _) => x
  | _ => VUndefined
  end.

(** [a || b] *)
Definition or_else (a b : value) : value := if truthy a then a else b.

End JS.

(** ** The language-server client, at its interface *)

Module LSP.
Import JS.

(** Why a request can fail: an error response of the server, or a failure of
    the transport (connection closed, no answer within the deadline). *)
Inductive lsp_error : Type :=
| RemoteError (code : Z) (message : string)
| ConnectionClosed
| RequestTimeout.

(** A settled promise. *)
Inductive settled (A : Type) : Type :=
| Fulfilled (a : A)
| Rejected (e : lsp_error).
Arguments Fulfilled {A} a.
Arguments Rejected {A} e.

(** Zero-indexed line/character pair. *)
Record Position : Type := { line : Z; character : Z }.

Record request : Type := Request {
  req_id : nat;
  req_method : string;
  req_params : value
}.

(** Modelled from the spec: [LSPClient] ([src/lsp-client.ts] is not among the
    sources).  Section 4.2: [request(method, params)] allocates a fresh
    identifier, writes the framed request and settles with the response that
    carries the same identifier: the success payload, or a rejection with the
    remote error, or a connection/timeout failure.  [respond] is the answer
    the session gives to each request, keyed by the request itself (and so by
    its identifier): responses may arrive in any order, the correlation is by
    identifier only.  [sent] is the sequence of request frames written. *)
Record LSPClient : Type := Client {
  respond : request -> settled value;
  nextId : nat;
  sent : list request
}.

(** Modelled from the spec: identifiers increase from 1 (the unit tests
    answer the first request under identifier 1). *)
Definition newClient (server : request -> settled value) : LSPClient :=
  {| respond := server; nextId := 1%nat; sent := [] |}.

(** Asynchronous code over one client: it may write request frames and it
    settles either way. *)
Definition Async (A : Type) : Type := LSPClient -> LSPClient * settled A.

Definition resolve {A} (a : A) : Async A := fun c => (c, Fulfilled a).

(** [const x = await p; k x] : a rejection of [p] is thrown on. *)
Definition andThen {A B} (p : Async A) (k : A -> Async B) : Async B :=
  fun c =>
    let '(c1, r) := p c in
    match r with
    | Fulfilled a => k a c1
    | Rejected e => (c1, Rejected e)
    end.

(** [p.catch(handler)] *)
Definition catch {A} (p : Async A) (handler : lsp_error -> A) : Async A :=
  fun c =>
    let '(c1, r) := p c in
    match r with
    | Fulfilled a => (c1, Fulfilled a)
    | Rejected e => (c1, Fulfilled (handler e))
    end.

(** [Promise.all([p, q])]: both are started, in this order, before either is
    awaited; the result is the pair of their values, or a rejection if one of
    them rejects. *)
Definition all2 {A B} (p : Async A) (q : Async B) : Async (A * B) :=
  fun c =>
    let '(c1, ra) := p c in
    let '(c2, rb) := q c1 in
    (c2, match ra, rb with
         | Fulfilled a, Fulfilled b => Fulfilled (a, b)
         | Rejected e, _ => Rejected e
         | _, Rejected e => Rejected e
         end).

(** Modelled from the spec: [lspClient.request(method, params)]. *)
Definition lsp_request (method : string) (params : value) : Async value :=
  fun c =>
    let r := {| req_id := nextId c; req_method := method; req_params := params |} in
    ({| respond := respond c; nextId := S (nextId c); sent := sent c ++ [r] |},
     respond c r).

End LSP.

Declare Scope async_scope.
Delimit Scope async_scope with async.
Notation "'await' x <- p ;; k" := (LSP.andThen p (fun x => k))
  (at level 10, x pattern, p at level 99, k at level 200) : async_scope.

(** ** src/utils/hierarchy-helper.ts *)

Module Hierarchy.
Import JS LSP.

(** [interface HierarchyResult<TItem, TIncoming, TOutgoing>] *)
Record HierarchyResult : Type := {
  item : value;
  incoming : value;
  outgoing : value
}.

(** [{ textDocument: { uri }, position }] *)
Definition prepareParams (uri : string) (position : Position) : value :=
  VObj [("textDocument", VObj [("uri", VStr uri)]);
        ("position", VObj [("line", VNum (line position));
                           ("character", VNum (character position))])].

(** [{ item }] *)
Definition itemParams (it : value) : value := VObj [("item", it)].

(** [async function fetchTwoPhaseHierarchy(lspClient, prepareMethod,
    incomingMethod, outgoingMethod, uri, position)]; [None] is the [null]
    the function returns. *)
Definition fetchTwoPhaseHierarchy
    (prepareMethod incomingMethod outgoingMethod : string)
    (uri : string) (position : Position) : Async (option HierarchyResult) :=
  (await items <- lsp_request prepareMethod (prepareParams uri position) ;;
   if negb (truthy items) || (isArray items && (arrayLength items =? 0)%nat)
   then resolve None
   else
     let it := if isArray items then index0 items else items in
     await (inc, out) <-
        all2 (catch (lsp_request incomingMethod (itemParams it)) (fun _ => VNull))
             (catch (lsp_request outgoingMethod (itemParams it)) (fun _ => VNull)) ;;
     resolve (Some {| item := it;
                      incoming := or_else inc (VArr []);
                      outgoing := or_else out (VArr []) |}))%async.

(** The three request frames the function writes on a client [c], named for
    the statements below: identifiers are allocated in the order of the calls
    (prepare, then the incoming relation, then the outgoing one). *)
Definition prepareRequest (c : LSPClient) (prepareMethod uri : string)
    (position : Position) : request :=
  {| req_id := nextId c; req_method := prepareMethod;
     req_params := prepareParams uri position |}.

Definition incomingRequest (c : LSPClient) (incomingMethod : string)
    (it : value) : request :=
  {| req_id := S (nextId c); req_method := incomingMethod;
     req_params := itemParams it |}.

Definition outgoingRequest (c : LSPClient) (outgoingMethod : string)
    (it : value) : request :=
  {| req_id := S (S (nextId c)); req_method := outgoingMethod;
     req_params := itemParams it |}.


Definition isRejected {A} (r : settled A) : bool :=
  match r with Rejected _ => true | Fulfilled _ => false end.

End Hierarchy.

(** ** src/tools/get-diagnostics.ts: class DiagnosticsCache *)

Module Diagnostics.
Import LSP.

Record Range : Type := { start : Position; finish : Position }.

(** The fields of a diagnostic record the tool reads. *)
Record Diagnostic : Type := {
  range : Range;
  severity : option Z;
  code : option string;
  source : option string;
  message : string
}.

(** The two private maps of the class.  A resolve function kept in
    [pendingWaits] is named by the number of the [getDiagnostics] call whose
    promise it resolves. *)
Record DiagnosticsCache : Type := {
  cache : gmap string (list Diagnostic);
  pendingWaits : gmap string (list nat)
}.

(** What [withTimeout] can reject with. *)
Inductive waitError : Type :=
| TimeoutError (msg : string)
| OtherError (msg : string).

(** A call of [getDiagnostics]: suspended in [withTimeout] until the deadline,
    or settled. *)
Inductive callState : Type :=
| Waiting (uri : string) (deadline : N)
| Returned (diagnostics : list Diagnostic)
| Threw (error : waitError).

(** The cache together with what surrounds it in the event loop: the calls
    made so far (a call's number is its position), the clock in milliseconds,
    and the client the cache was constructed with. *)
Record World : Type := {
  dc : DiagnosticsCache;
  calls : list callState;
  now : N;
  client : LSPClient
}.

Definition newWorld (server : request -> settled JS.value) : World :=
  {| dc := {| cache := ∅; pendingWaits := ∅ |};
     calls := [];
     now := 0%N;
     client := newClient server |}.

(** The resolve functions waiting on [uri]. *)
Definition waitersOf (w : World) (uri : string) : list nat :=
  default [] (pendingWaits (dc w) !! uri).

(** [resolve(diagnostics)] on the promise of call [c]: a promise settles
    once, so only a call still suspended is affected. *)
Definition resolveCall (diagnostics : list Diagnostic)
    (cs : list callState) (c : nat) : list callState :=
  match cs !! c with
  | Some (Waiting _ _) => <[c := Returned diagnostics]> cs
  | _ => cs
  end.

(** The handler the constructor registers for
    [textDocument/publishDiagnostics] (lines 21-38). *)
Definition publishDiagnostics (uri : string) (diagnostics : list Diagnostic)
    (w : World) : World :=
  let cache1 := <[uri := diagnostics]> (cache (dc w)) in
  match pendingWaits (dc w) !! uri with
  | Some waiters =>
      {| dc := {| cache := cache1;
                  pendingWaits := delete uri (pendingWaits (dc w)) |};
         calls := foldl (resolveCall diagnostics) (calls w) waiters;
         now := now w;
         client := client w |}
  | None =>
      {| dc := {| cache := cache1; pendingWaits := pendingWaits (dc w) |};
         calls := calls w;
         now := now w;
         client := client w |}
  end.

(** [waitForDiagnostics(uri, timeoutMs)] up to its [await] (lines 63-81), as
    the call numbered [length (calls w)]. *)
Definition waitForDiagnostics (uri : string) (timeoutMs : N) (w : World) : World :=
  match cache (dc w) !! uri with
  | Some diagnostics =>
      {| dc := dc w; calls := calls w ++ [Returned diagnostics];
         now := now w; client := client w |}
  | None =>
      let waiters := default [] (pendingWaits (dc w) !! uri) in
      {| dc := {| cache := cache (dc w);
                  pendingWaits :=
                    <[uri := waiters ++ [length (calls w)]]> (pendingWaits (dc w)) |};
         calls := calls w ++ [Waiting uri (now w + timeoutMs)];
         now := now w;
         client := client w |}
  end.

(** [getDiagnostics(uri, forceRefresh)] up to its first suspension
    (lines 45-58); the number of the call is returned with the world. *)
Definition getDiagnostics (uri : string) (forceRefresh : bool) (w : World)
    : World * nat :=
  let w1 :=
    if forceRefresh
    then {| dc := {| cache := delete uri (cache (dc w));
                     pendingWaits := pendingWaits (dc w) |};
            calls := calls w; now := now w; client := client w |}
    else w in
  (match cache (dc w1) !! uri with
   | Some diagnostics =>
       {| dc := dc w1; calls := calls w1 ++ [Returned diagnostics];
          now := now w1; client := client w1 |}
   | None => waitForDiagnostics uri 5000 w1
   end,
   length (calls w)).

(** The [catch] block of [waitForDiagnostics] (lines 82-92), entered by call
    [c] waiting on [uri] when [withTimeout] rejects with [error]. *)
Definition onWaitRejected (c : nat) (uri : string) (error : waitError)
    (w : World) : World :=
  {| dc := {| cache := cache (dc w);
              pendingWaits := delete uri (pendingWaits (dc w)) |};
     calls := <[c := match error with
                     | TimeoutError _ => Returned []
                     | _ => Threw error
                     end]> (calls w);
     now := now w;
     client := client w |}.

(** Modelled from the spec: [withTimeout] ([src/utils/errors.ts] is not among
    the sources).  Section 2: it races an operation against a deadline and
    produces a distinguishable timeout failure.  Here: when the clock reaches
    [t], a call still suspended whose deadline is not after [t] is rejected
    with a [TimeoutError] carrying the message it was given. *)
Definition timerFires (t : N) (w : World) (c : nat) : World :=
  match calls w !! c with
  | Some (Waiting uri deadline) =>
      if (deadline <=? t)%N
      then onWaitRejected c uri
             (TimeoutError (String.append "Timeout waiting for diagnostics for " uri)) w
      else w
  | _ => w
  end.

(** Modelled from the spec: the event loop lets [d] milliseconds pass; the
    timers of [withTimeout] due by then fire, oldest call first (all waits
    have the same length, so this is the order of the deadlines). *)
Definition advance (d : N) (w : World) : World :=
  let t := (now w + d)%N in
  foldl (timerFires t)
        {| dc := dc w; calls := calls w; now := t; client := client w |}
        (seq 0 (length (calls w))).

(** [clearForFile(uri)] (lines 98-102) *)
Definition clearForFile (uri : string) (w : World) : World :=
  {| dc := {| cache := delete uri (cache (dc w));
              pendingWaits := delete uri (pendingWaits (dc w)) |};
     calls := calls w; now := now w; client := client w |}.

(** [getCacheSize()] (lines 107-109) *)
Definition getCacheSize (w : World) : nat := size (cache (dc w)).

(** What can happen to the cache from outside. *)
Inductive action : Type :=
| Get (uri : string) (forceRefresh : bool)
| Publish (uri : string) (diagnostics : list Diagnostic)
| ClearForFile (uri : string)
| Idle.

Definition act (a : action) (w : World) : World :=
  match a with
  | Get uri forceRefresh => fst (getDiagnostics uri forceRefresh w)
  | Publish uri diagnostics => publishDiagnostics uri diagnostics w
  | ClearForFile uri => clearForFile uri w
  | Idle => w
  end.

(** One entry of a script: the action happens [delay] milliseconds after the
    previous one; timers due at that moment fire before it. *)
Definition step (w : World) (e : N * action) : World :=
  act (snd e) (advance (fst e) w).

Definition run (w : World) (script : list (N * action)) : World :=
  foldl step w script.

(** Several callers ask for [uri] one after the other in one turn of the
    event loop (no time passes, nothing else happens in between). *)
Definition askAll (uri : string) (flags : list bool) (w : World) : World :=
  foldl (fun w forceRefresh => fst (getDiagnostics uri forceRefresh w)) w flags.

(** A call is awaiting [uri]: its promise is not settled. *)
Definition awaiting (w : World) (c : nat) (uri : string) : Prop :=
  exists deadline, calls w !! c = Some (Waiting uri deadline).

(** The action is a push for [uri]. *)
Definition publishes (uri : string) (a : action) : bool :=
  match a with
  | Publish u _ => String.eqb u uri
  | _ => false
  end.

(** A promise not yet settled. *)
Definition suspended (o : option callState) : bool :=
  match o with Some (Waiting _ _) => true | _ => false end.

(** A suspended call whose deadline is not after [t]. *)
Definition expired (t : N) (o : option callState) : bool :=
  match o with Some (Waiting _ deadline) => (deadline <=? t)%N | _ => false end.

(** What the timers at time [t] make of a call: an expired wait returns the
    empty sequence, everything else is left alone. *)
Definition timedOut (t : N) (o : option callState) : option callState :=
  if expired t o then Some (Returned []) else o.

(** Every resolve function kept in [pendingWaits] belongs to a call that is
    suspended on that very URI. *)
Definition registeredAwait (w : World) : Prop :=
  forall uri ws c,
    pendingWaits (dc w) !! uri = Some ws -> c ∈ ws -> awaiting w c uri.

(** No call has ended in an error. *)
Definition neverThrew (w : World) : Prop :=
  forall c e, calls w !! c <> Some (Threw e).

(** A script without a push for [uri]. *)
Definition quietOn (uri : string) (script : list (N * action)) : bool :=
  forallb (fun e => negb (publishes uri (snd e))) script.

(** The time a script takes. *)
Definition duration (script : list (N * action)) : N :=
  foldr (fun e acc => (fst e + acc)%N) 0%N script.

End Diagnostics.

(** ** The open-document tracker *)

Module Tracker.

(** Modelled from the spec: the Open-Document Tracker, class [FileTracker]
    ([src/file-tracker.ts] is not among the sources; its unit tests are).
    Data model, section 3: an open document has a file path, a URI derived
    from it, a language identifier, a version number that starts at 1, and a
    last-access timestamp for the LRU order.  The timestamp is a logical one
    here: the tracker counts the successful [ensureFileOpen] calls. *)
Record OpenDocument : Type := {
  docUri : string;
  languageId : string;
  version : nat;
  lastAccess : nat
}.

(** Modelled from the spec: what the tracker does to the outside, in order:
    the open and close notifications it sends to the session and the
    invocations of the callback registered with [onFileClosed] (a callback is
    named by a number). *)
Inductive effect : Type :=
| DidOpen (uri languageId : string) (version : nat) (text : string)
| DidClose (uri : string)
| FileClosed (callback : nat) (uri : string).

(** Modelled from the spec: the state of the tracker (section 4.4): the
    capacity, the tracked documents by path, the single callback slot. *)
Record FileTracker : Type := {
  maxOpenFiles : nat;
  openFiles : gmap string OpenDocument;
  clock : nat;
  onClosed : option nat;
  trace : list effect
}.

Inductive trackerError : Type :=
| FileNotFound (path : string).

(** Modelled from the spec: the capacity; the source uses 100. *)
Definition MAX_OPEN_FILES : nat := 100.

(** Modelled from the spec: a tracker starts with nothing tracked and no
    callback. *)
Definition newTracker (capacity : nat) : FileTracker :=
  {| maxOpenFiles := capacity; openFiles := ∅; clock := 0;
     onClosed := None; trace := [] |}.

(** Modelled from the spec: file identities are URIs derived from the paths
    (section 6); the tests expect them to start with [file://]. *)
Definition pathToUri (path : string) : string := String.append "file://" path.

Definition endsWith (suffix s : string) : bool :=
  let n := String.length s in
  let k := String.length suffix in
  (k <=? n)%nat && String.eqb (String.substring (n - k) k s) suffix.

(** Modelled from the spec: the language identifier (section 4.4):
    [.c] gives [c]; [.cpp], [.cc], [.cxx], [.hpp], [.h] give [cpp]. *)
Definition languageIdOf (path : string) : string :=
  if endsWith ".c" path then "c" else "cpp".

(** Modelled from the spec: the invocation of the single callback slot for a
    closed document; nothing is invoked while no callback is registered. *)
Definition notifyClosed (t : FileTracker) (uri : string) : list effect :=
  match onClosed t with
  | Some callback => [FileClosed callback uri]
  | None => []
  end.

(** Modelled from the spec: closing one tracked document, as [closeFile],
    eviction and [closeAll] all do: the close notification, the removal, the
    callback. *)
Definition closeTracked (path : string) (d : OpenDocument) (t : FileTracker)
    : FileTracker :=
  {| maxOpenFiles := maxOpenFiles t;
     openFiles := delete path (openFiles t);
     clock := clock t;
     onClosed := onClosed t;
     trace := trace t ++ [DidClose (docUri d)] ++ notifyClosed t (docUri d) |}.

(** Modelled from the spec: [closeFile(path)] (section 4.4): a no-op if not
    tracked; otherwise sends the close notification, removes the entry, and
    invokes the callback once. *)
Definition closeFile (path : string) (t : FileTracker) : FileTracker :=
  match openFiles t !! path with
  | None => t
  | Some d => closeTracked path d t
  end.

(** Modelled from the spec: of two tracked documents, the one touched
    earlier. *)
Definition older (a b : string * OpenDocument) : string * OpenDocument :=
  if (lastAccess (snd a) <=? lastAccess (snd b))%nat then a else b.

(** Modelled from the spec: the least-recently-used document is the tracked
    one with the smallest last-access timestamp. *)
Definition leastRecentlyUsed (m : gmap string OpenDocument)
    : option (string * OpenDocument) :=
  match map_to_list m with
  | [] => None
  | x :: rest => Some (foldl older x rest)
  end.

(** Modelled from the spec: eviction sends the close notification of the
    least-recently-used document, removes it and invokes the callback. *)
Definition evictLeastRecentlyUsed (t : FileTracker) : FileTracker :=
  match leastRecentlyUsed (openFiles t) with
  | Some (path, d) => closeTracked path d t
  | None => t
  end.

(** Modelled from the spec: [ensureFileOpen(path)], the [ensureOpen] of
    section 4.4 under the name the unit tests call it by.  [disk] is what
    the file system holds at [path] at the time of the call.  It fails with a
    not-found error if the file does not exist; if the document is tracked it
    updates the recency and returns the cached URI without protocol traffic;
    otherwise, at capacity, it first evicts the least-recently-used
    document, and then sends the open notification with the content on disk,
    the language identifier and version 1. *)
Definition ensureFileOpen (path : string) (disk : option string) (t : FileTracker)
    : FileTracker * (string + trackerError) :=
  match disk with
  | None => (t, inr (FileNotFound path))
  | Some text =>
      match openFiles t !! path with
      | Some d =>
          ({| maxOpenFiles := maxOpenFiles t;
              openFiles :=
                <[path := {| docUri := docUri d; languageId := languageId d;
                             version := version d; lastAccess := clock t |}]>
                  (openFiles t);
              clock := S (clock t);
              onClosed := onClosed t;
              trace := trace t |},
           inl (docUri d))
      | None =>
          let t1 := if (maxOpenFiles t <=? size (openFiles t))%nat
                    then evictLeastRecentlyUsed t else t in
          let uri := pathToUri path in
          ({| maxOpenFiles := maxOpenFiles t1;
              openFiles :=
                <[path := {| docUri := uri; languageId := languageIdOf path;
                             version := 1; lastAccess := clock t1 |}]>
                  (openFiles t1);
              clock := S (clock t1);
              onClosed := onClosed t1;
              trace := trace t1 ++ [DidOpen uri (languageIdOf path) 1 text] |},
           inl uri)
      end
  end.

(** Modelled from the spec: [closeAll()] closes every tracked document, each
    with its own callback invocation, and clears the tracking state. *)
Definition closeAll (t : FileTracker) : FileTracker :=
  let t1 := foldl (fun t e => closeTracked (fst e) (snd e) t) t
                  (map_to_list (openFiles t)) in
  {| maxOpenFiles := maxOpenFiles t1; openFiles := ∅; clock := clock t1;
     onClosed := onClosed t1; trace := trace t1 |}.

(** Modelled from the spec: [onFileClosed(callback)]: a single slot, the
    last registration wins. *)
Definition onFileClosed (callback : nat) (t : FileTracker) : FileTracker :=
  {| maxOpenFiles := maxOpenFiles t; openFiles := openFiles t;
     clock := clock t; onClosed := Some callback; trace := trace t |}.

(** Modelled from the spec: [isFileOpen(path)] and [getOpenFiles()], pure
    queries. *)
Definition isFileOpen (path : string) (t : FileTracker) : bool :=
  bool_decide (is_Some (openFiles t !! path)).

Definition getOpenFiles (t : FileTracker) : gset string :=
  list_to_set (docUri <$> (snd <$> map_to_list (openFiles t))).

(** The calls made on a tracker. *)
Inductive op : Type :=
| EnsureFileOpen (path : string) (disk : option string)
| CloseFile (path : string)
| CloseAll
| OnFileClosed (callback : nat).

Definition apply (t : FileTracker) (o : op) : FileTracker :=
  match o with
  | EnsureFileOpen path disk => fst (ensureFileOpen path disk t)
  | CloseFile path => closeFile path t
  | CloseAll => closeAll t
  | OnFileClosed callback => onFileClosed callback t
  end.

Definition run (t : FileTracker) (ops : list op) : FileTracker :=
  foldl apply t ops.

(** The history of touches: the paths of the [ensureFileOpen] calls that
    succeeded, oldest first. *)
Definition touches (ops : list op) : list string :=
  omap (fun o => match o with
                 | EnsureFileOpen path (Some _) => Some path
                 | _ => None
                 end) ops.

(** The position of the most recent touch of [path] in a history. *)
Fixpoint lastTouch (history : list string) (path : string) : option nat :=
  match history with
  | [] => None
  | q :: rest =>
      match lastTouch rest path with
      | Some i => Some (S i)
      | None => if String.eqb q path then Some O else None
      end
  end.

Definition isDidOpen (e : effect) : bool :=
  match e with DidOpen _ _ _ _ => true | _ => false end.

(** How many open notifications a sequence of effects holds. *)
Definition opensSent (evs : list effect) : nat :=
  length (List.filter isDidOpen evs).

(** The document [ensureFileOpen] creates for [path] at clock value [stamp]. *)
Definition freshDocument (path : string) (stamp : nat) : OpenDocument :=
  {| docUri := pathToUri path; languageId := languageIdOf path;
     version := 1; lastAccess := stamp |}.

(** A document with its timestamp renewed. *)
Definition touched (d : OpenDocument) (stamp : nat) : OpenDocument :=
  {| docUri := docUri d; languageId := languageId d;
     version := version d; lastAccess := stamp |}.

(** The tracked documents agree with the history of touches [h]: the clock
    counts the touches, and the timestamp of a tracked document is the
    position of its most recent touch; its URI is the one derived from its
    path. *)
Definition follows (h : list string) (t : FileTracker) : Prop :=
  clock t = length h /\
  forall p d, openFiles t !! p = Some d ->
    docUri d = pathToUri p /\ lastTouch h p = Some (lastAccess d).

End Tracker.

(** ** Fixtures of the unit tests (tests/unit/tools/get-diagnostics.test.ts,
       tests/helpers/mock-lsp-responses.ts) *)

Module DiagnosticsFixtures.
Import LSP Diagnostics.

Definition span (l : Z) (c1 c2 : Z) : Range :=
  {| start := {| line := l; character := c1 |};
     finish := {| line := l; character := c2 |} |}.

Definition mockDiagnostics : list Diagnostic :=
  [ {| range := span 10 5 15; severity := Some 1;
       code := Some "undeclared_var"; source := Some "clangd";
       message := "Use of undeclared identifier 'foo'" |};
    {| range := span 20 0 10; severity := Some 2;
       code := Some "unused_var"; source := Some "clangd";
       message := "Unused variable 'bar'" |};
    {| range := span 30 2 12; severity := Some 3;
       code := None; source := None;
       message := "Consider using const here" |} ].

(** [[mockDiagnostics[0]]] *)
Definition newDiagnostics : list Diagnostic := take 1 mockDiagnostics.

Definition testUri : string := "file:///test.cpp".

Definition freshWorld : World := newWorld (fun _ => Rejected ConnectionClosed).

(** Two callers ask for the diagnostics of the same file in the same turn. *)
Definition twoCallers : list (N * action) :=
  [(0%N, Get testUri false); (0%N, Get testUri false)].

(** ... and the file is then closed in the tracker, whose callback clears
    the cache for it, 10 ms later. *)
Definition twoCallersThenClear : list (N * action) :=
  twoCallers ++ [(10%N, ClearForFile testUri)].

(** Three callers, the first 3 s before the other two; the wait of the
    first one elapses at 5 s. *)
Definition staggeredCallers : list (N * action) :=
  [(0%N, Get testUri false); (3000%N, Get testUri false);
   (0%N, Get testUri true); (2000%N, Idle)].

(** A value is cached, then the file is cleared 10 ms after a forced
    refresh was requested. *)
Definition cachedThenRefresh : list (N * action) :=
  [(0%N, Publish testUri mockDiagnostics); (50%N, Get testUri true)].

End DiagnosticsFixtures.

(** ** Fixtures of the unit tests (tests/unit/utils/hierarchy-helper.test.ts) *)

Module HierarchyFixtures.
Import JS LSP Hierarchy.

Definition mockItem : value :=
  VObj [("name", VStr "TestFunction"); ("kind", VNum 12);
        ("uri", VStr "file:///test.cpp")].

Definition mockItem2 : value :=
  VObj [("name", VStr "TestFunction2"); ("kind", VNum 12);
        ("uri", VStr "file:///test.cpp")].

Definition callee : value := VObj [("to", VObj [("name", VStr "callee")])].

Definition at105 : Position := {| line := 10; character := 5 |}.

Definition fetchCalls : Async (option HierarchyResult) :=
  fetchTwoPhaseHierarchy "textDocument/prepareCallHierarchy"
    "callHierarchy/incomingCalls" "callHierarchy/outgoingCalls"
    "file:///test.cpp" at105.

(** The mock servers answer by request identifier, as the tests do. *)
Definition emptyPrepare : LSPClient := newClient (fun _ => Fulfilled (VArr [])).

Definition twoCandidates : LSPClient :=
  newClient (fun r => match req_id r with
                      | 1%nat => Fulfilled (VArr [mockItem; mockItem2])
                      | _ => Fulfilled (VArr [])
                      end).

Definition incomingFails : LSPClient :=
  newClient (fun r => match req_id r with
                      | 1%nat => Fulfilled mockItem
                      | 2%nat => Rejected (RemoteError (-32603) "Internal error")
                      | _ => Fulfilled (VArr [callee])
                      end).

Definition nullRelations : LSPClient :=
  newClient (fun r => match req_id r with
                      | 1%nat => Fulfilled mockItem
                      | _ => Fulfilled VNull
                      end).

End HierarchyFixtures.

(** ** Fixtures of the unit tests (tests/unit/file-tracker.test.ts) *)

Module TrackerFixtures.
Import Tracker.

(** [join(testDir, `file${i}.cpp`)] *)
Definition fileN (i : nat) : string :=
  String.append "/tmp/file" (String.append (pretty i) ".cpp").

(** [writeFileSync(file, `int x${i};`)] *)
Definition contentN (i : nat) : string :=
  String.append "int x" (String.append (pretty i) ";").

(** The callback is registered, then the first 100 files are opened. *)
Definition openHundred : list op :=
  OnFileClosed 0 :: ((fun i => EnsureFileOpen (fileN i) (Some (contentN i))) <$> seq 0 100).

Definition testFile : string := "/tmp/test.cpp".

Definition testContent : string := "// Test C++ file".

End TrackerFixtures.

(** ** Further notions for the two-phase fetch *)

Module HierarchyNotions.
Import JS LSP Hierarchy.

(** A relation response that leaves its side of the result empty: a
    rejection, a falsy value (null, undefined, false, 0, the empty string)
    or an empty array. *)
Definition emptyLike (r : settled value) : bool :=
  match r with
  | Rejected _ => true
  | Fulfilled (VArr []) => true
  | Fulfilled v => negb (truthy v)
  end.

(** The result is a hierarchy, not null and not a rejection. *)
Definition foundHierarchy (r : settled (option HierarchyResult)) : bool :=
  match r with
  | Fulfilled (Some _) => true
  | _ => false
  end.

End HierarchyNotions.

(** ** Further notions for the diagnostics cache *)

Module DiagnosticsNotions.
Import LSP Diagnostics.

(** The URI an action is about. *)
Definition uriOf (a : action) : option string :=
  match a with
  | Get uri _ | Publish uri _ | ClearForFile uri => Some uri
  | Idle => None
  end.

(** What one action does to the cached entry of [uri], read off the three
    places that write [this.cache]: the push handler sets it, a forced
    refresh and [clearForFile] delete it. *)
Definition cacheStep (uri : string) (entry : option (list Diagnostic))
    (a : action) : option (list Diagnostic) :=
  match a with
  | Publish u ds => if String.eqb u uri then Some ds else entry
  | ClearForFile u => if String.eqb u uri then None else entry
  | Get u true => if String.eqb u uri then None else entry
  | _ => entry
  end.

(** The cached entry of [uri] after a script, from the entry before it. *)
Definition cacheAfter (uri : string) (script : list (N * action))
    (entry : option (list Diagnostic)) : option (list Diagnostic) :=
  foldl (fun entry e => cacheStep uri entry (snd e)) entry script.

(** The number of pushes in a script. *)
Definition pushes (script : list (N * action)) : nat :=
  length (List.filter (fun e => match snd e with Publish _ _ => true | _ => false end)
                      script).

(** Every suspended call has its deadline ahead of the clock. *)
Definition deadlinesAhead (w : World) : Prop :=
  forall c uri deadline,
    calls w !! c = Some (Waiting uri deadline) -> (now w < deadline)%N.

End DiagnosticsNotions.

(** ** src/tools/get-diagnostics.ts: the severity counts of the tool *)

Module DiagnosticsTool.
Import LSP Diagnostics.

(** The enumeration [DiagnosticSeverity] of [src/utils/lsp-types.ts], which
    is not among the sources: its four members are taken as given. *)
Record DiagnosticSeverity : Type := {
  Error : Z;
  Warning : Z;
  Information : Z;
  Hint : Z
}.

(** The values of the protocol, as the mocks use them. *)
Definition lspSeverity : DiagnosticSeverity :=
  {| Error := 1; Warning := 2; Information := 3; Hint := 4 |}.

(** [const counts = { errors: 0, warnings: 0, information: 0, hints: 0 }] *)
Record counts : Type := {
  errors : nat;
  warnings : nat;
  information : nat;
  hints : nat
}.

Definition noCounts : counts :=
  {| errors := 0; warnings := 0; information := 0; hints := 0 |}.

(** The [switch (diag.severity)] of lines 136-149: the first case whose
    constant is strictly equal to the severity counts; a diagnostic without
    a severity, or with another one, counts nowhere. *)
Definition countOne (sev : DiagnosticSeverity) (cs : counts) (diag : Diagnostic)
    : counts :=
  match severity diag with
  | Some s =>
      if s =? Error sev then
        {| errors := S (errors cs); warnings := warnings cs;
           information := information cs; hints := hints cs |}
      else if s =? Warning sev then
        {| errors := errors cs; warnings := S (warnings cs);
           information := information cs; hints := hints cs |}
      else if s =? Information sev then
        {| errors := errors cs; warnings := warnings cs;
           information := S (information cs); hints := hints cs |}
      else if s =? Hint sev then
        {| errors := errors cs; warnings := warnings cs;
           information := information cs; hints := S (hints cs) |}
      else cs
  | None => cs
  end.

(** [for (const diag of diagnostics) { switch ... }] (lines 135-150) *)
Definition countBySeverity (sev : DiagnosticSeverity) (diagnostics : list Diagnostic)
    : counts :=
  foldl (countOne sev) noCounts diagnostics.

(** [severityName] (lines 154-159) *)
Definition severityName (sev : DiagnosticSeverity) (diag : Diagnostic) : string :=
  match severity diag with
  | Some s =>
      if s =? Error sev then "error"
      else if s =? Warning sev then "warning"
      else if s =? Information sev then "information"
      else if s =? Hint sev then "hint"
      else "unknown"
  | None => "unknown"
  end.

(** The [severity] fields of [formattedDiagnostics] (line 153: one entry per
    diagnostic, in order). *)
Definition formattedSeverities (sev : DiagnosticSeverity)
    (diagnostics : list Diagnostic) : list string :=
  severityName sev <$> diagnostics.

(** How many entries of a list of names are [name]. *)
Definition named (name : string) (names : list string) : nat :=
  length (List.filter (String.eqb name) names).

End DiagnosticsTool.

(** ** Further notions for the open-document tracker *)

Module TrackerNotions.
Import Tracker.

(** The URIs of the close notifications in a sequence of effects, in
    order. *)
Definition closedUris (evs : list effect) : list string :=
  omap (fun e => match e with DidClose uri => Some uri | _ => None end) evs.

(** The invocations of the callback in a sequence of effects, in order. *)
Definition callbackCalls (evs : list effect) : list (nat * string) :=
  omap (fun e => match e with FileClosed k uri => Some (k, uri) | _ => None end) evs.

(** The callback registered by the last [onFileClosed] of a history. *)
Definition lastRegistered (ops : list op) : option nat :=
  last (omap (fun o => match o with OnFileClosed k => Some k | _ => None end) ops).

(** The balance between what was sent and what is tracked: as many open
    notifications as close notifications plus tracked documents, and no more
    callback invocations than close notifications. *)
Definition balanced (t : FileTracker) : Prop :=
  opensSent (trace t)
  = (length (closedUris (trace t)) + size (openFiles t))%nat /\
  (length (callbackCalls (trace t)) <= length (closedUris (trace t)))%nat.

End TrackerNotions.

(** ** Inputs for the further properties *)

Module MoreFixtures.
Import JS LSP Hierarchy HierarchyFixtures Diagnostics DiagnosticsFixtures.

(** The server answers the prepare request with an internal error. *)
Definition prepareFails : LSPClient :=
  newClient (fun _ => Rejected (RemoteError (-32603) "Internal error")).

(** The prepare request finds the item, both relation requests fail. *)
Definition bothRelationsFail : LSPClient :=
  newClient (fun r => match req_id r with
                      | 1%nat => Fulfilled mockItem
                      | _ => Rejected ConnectionClosed
                      end).

(** One caller, and a second one 3 s later. *)
Definition earlyAndLate : list (N * action) :=
  [(0%N, Get testUri false); (3000%N, Get testUri false)].

Definition otherUri : string := "file:///other.cpp".

End MoreFixtures.

(* ===================================================================== *)
(** * Part II.  Theorems                                                  *)
(* ===================================================================== *)

Section HierarchyFacts.
Import JS LSP Hierarchy.

Variables (c : LSPClient) (pm im om uri : string) (pos : Position).

Example fetch_single_item :
  let it := VObj [("name", VStr "TestFunction"); ("kind", VNum 12)] in
  let server (r : request) :=
    match req_id r with
    | 1%nat => Fulfilled it
    | 2%nat => Fulfilled (VArr [VStr "caller"])
    | _ => Fulfilled (VArr [VStr "callee"])
    end in
  snd (fetchTwoPhaseHierarchy "textDocument/prepareCallHierarchy"
         "callHierarchy/incomingCalls" "callHierarchy/outgoingCalls"
         "file:///test.cpp" {| line := 10; character := 5 |} (newClient server))
  = Fulfilled (Some {| item := it; incoming := VArr [VStr "caller"];
                       outgoing := VArr [VStr "callee"] |}).
Proof. reflexivity. Qed.

(** The client after the prepare request alone. *)
Lemma after_prepare_only (items : value) :
  respond c (prepareRequest c pm uri pos) = Fulfilled items ->
  (negb (truthy items) || (isArray items && (arrayLength items =? 0)%nat)) = true ->
  fetchTwoPhaseHierarchy pm im om uri pos c
  = ({| respond := respond c; nextId := S (nextId c);
        sent := sent c ++ [prepareRequest c pm uri pos] |}, Fulfilled None).
Proof.
  intros Hresp Hguard.
  unfold fetchTwoPhaseHierarchy, andThen, lsp_request.
  fold (prepareRequest c pm uri pos).
  rewrite Hresp, Hguard. reflexivity.
Qed.

(** What the function does once the guard of line 42 lets [items] through. *)
Lemma after_anchor (items : value) :
  respond c (prepareRequest c pm uri pos) = Fulfilled items ->
  truthy items = true ->
  items <> VArr [] ->
  let it := if isArray items then index0 items else items in
  let inc := match respond c (incomingRequest c im it) with
             | Fulfilled v => v | Rejected _ => VNull end in
  let out := match respond c (outgoingRequest c om it) with
             | Fulfilled v => v | Rejected _ => VNull end in
  fetchTwoPhaseHierarchy pm im om uri pos c
  = ({| respond := respond c; nextId := S (S (S (nextId c)));
        sent := sent c ++ [prepareRequest c pm uri pos;
                           incomingRequest c im it; outgoingRequest c om it] |},
     Fulfilled (Some {| item := it;
                        incoming := or_else inc (VArr []);
                        outgoing := or_else out (VArr []) |})).
Proof.
  intros Hresp Htruthy Hne it inc out.
  assert (Hguard : (negb (truthy items)
                    || (isArray items && (arrayLength items =? 0)%nat)) = false).
  { rewrite Htruthy. simpl.
    destruct items as [| | | | |l|]; simpl; try reflexivity.
    destruct l; [congruence | reflexivity]. }
  unfold fetchTwoPhaseHierarchy, andThen, all2, catch, lsp_request, resolve.
  fold (prepareRequest c pm uri pos).
  rewrite Hresp, Hguard. fold it.
  subst inc out. unfold incomingRequest, outgoingRequest. cbn.
  repeat match goal with
         | |- context [respond c ?r] => destruct (respond c r); cbn
         end;
    rewrite <- !app_assoc; reflexivity.
Qed.

(** C6.  When the prepare request resolves to null, to nothing (undefined) or
    to an empty array, the fetch is fulfilled, not rejected, with the
    not-found value null, and the only frame written is the prepare request:
    no relation request is issued. *)
Theorem prepare_empty_is_not_found (items : value) :
  respond c (prepareRequest c pm uri pos) = Fulfilled items ->
  items = VNull \/ items = VUndefined \/ items = VArr [] ->
  snd (fetchTwoPhaseHierarchy pm im om uri pos c) = Fulfilled None /\
  sent (fst (fetchTwoPhaseHierarchy pm im om uri pos c))
  = sent c ++ [prepareRequest c pm uri pos].
Proof.
  intros Hresp Hitems.
  rewrite (after_prepare_only items Hresp).
  - split; reflexivity.
  - destruct Hitems as [-> | [-> | ->]]; reflexivity.
Qed.

(** C7.  When the prepare request resolves to a non-empty array, whatever its
    length, the anchor is its first element: that element is the [item] of
    both relation requests written and the [item] of the result. *)
Theorem anchor_is_first_element (x : value) (rest : list value) :
  respond c (prepareRequest c pm uri pos) = Fulfilled (VArr (x :: rest)) ->
  exists res,
    snd (fetchTwoPhaseHierarchy pm im om uri pos c) = Fulfilled (Some res) /\
    item res = x /\
    sent (fst (fetchTwoPhaseHierarchy pm im om uri pos c))
    = sent c ++ [prepareRequest c pm uri pos;
                 {| req_id := S (nextId c); req_method := im;
                    req_params := VObj [("item", x)] |};
                 {| req_id := S (S (nextId c)); req_method := om;
                    req_params := VObj [("item", x)] |}].
Proof.
  intros Hresp.
  rewrite (after_anchor _ Hresp); [| reflexivity | discriminate].
  simpl. eexists. split; [reflexivity |]. split; reflexivity.
Qed.

(** C2.  With an anchor found, when exactly one of the two relation requests
    is rejected (an error response or a transport failure) and the other is
    fulfilled with a collection, the fetch is fulfilled: the rejected side is
    the empty array, the other side is the collection its request returned. *)
Theorem one_relation_failure_degrades_that_side
    (items : value) (real : list value) :
  respond c (prepareRequest c pm uri pos) = Fulfilled items ->
  truthy items = true ->
  items <> VArr [] ->
  let it := if isArray items then index0 items else items in
  let rin := respond c (incomingRequest c im it) in
  let rout := respond c (outgoingRequest c om it) in
  (isRejected rin = true /\ rout = Fulfilled (VArr real)) \/
  (rin = Fulfilled (VArr real) /\ isRejected rout = true) ->
  exists res,
    snd (fetchTwoPhaseHierarchy pm im om uri pos c) = Fulfilled (Some res) /\
    item res = it /\
    (isRejected rin = true ->
       incoming res = VArr [] /\ outgoing res = VArr real) /\
    (isRejected rout = true ->
       outgoing res = VArr [] /\ incoming res = VArr real).
Proof.
  intros Hresp Htruthy Hne it rin rout Hone.
  rewrite (after_anchor _ Hresp Htruthy Hne). fold it. fold rin. fold rout.
  simpl. eexists. split; [reflexivity |]. split; [reflexivity |]. simpl.
  destruct Hone as [[Hin Hout] | [Hin Hout]].
  - rewrite Hout. destruct rin; [discriminate |].
    split; [intros _; split; reflexivity | discriminate].
  - rewrite Hin. destruct rout; [discriminate |].
    split; [discriminate | intros _; split; reflexivity].
Qed.


End HierarchyFacts.

(** *** The theorems above at the inputs of the unit tests *)

Section HierarchyWitnesses.
Import JS LSP Hierarchy HierarchyFixtures.

Lemma prepare_empty_is_not_found_witness :
  snd (fetchCalls emptyPrepare) = Fulfilled None /\
  length (sent (fst (fetchCalls emptyPrepare))) = 1%nat.
Proof.
  destruct (prepare_empty_is_not_found emptyPrepare "textDocument/prepareCallHierarchy"
              "callHierarchy/incomingCalls" "callHierarchy/outgoingCalls"
              "file:///test.cpp" at105 (VArr []))
    as [Hres Hsent].
  - reflexivity.
  - right; right; reflexivity.
  - split; [exact Hres |]. unfold fetchCalls. rewrite Hsent. reflexivity.
Defined.

Lemma anchor_is_first_element_witness :
  exists res, snd (fetchCalls twoCandidates) = Fulfilled (Some res) /\
              item res = mockItem.
Proof.
  destruct (anchor_is_first_element twoCandidates "textDocument/prepareCallHierarchy"
              "callHierarchy/incomingCalls" "callHierarchy/outgoingCalls"
              "file:///test.cpp" at105 mockItem [mockItem2])
    as (res & Hres & Hitem & _).
  - reflexivity.
  - exists res. split; assumption.
Defined.

Lemma one_relation_failure_degrades_that_side_witness :
  exists res, snd (fetchCalls incomingFails) = Fulfilled (Some res) /\
              item res = mockItem /\
              incoming res = VArr [] /\ outgoing res = VArr [callee].
Proof.
  destruct (one_relation_failure_degrades_that_side incomingFails
              "textDocument/prepareCallHierarchy"
              "callHierarchy/incomingCalls" "callHierarchy/outgoingCalls"
              "file:///test.cpp" at105 mockItem [callee])
    as (res & Hres & Hitem & Hin & _).
  - reflexivity.
  - reflexivity.
  - discriminate.
  - left. split; reflexivity.
  - exists res. split; [exact Hres |]. split; [exact Hitem |].
    apply Hin. reflexivity.
Defined.


End HierarchyWitnesses.

(** ** The diagnostics cache *)

Section DiagnosticsFacts.
Import LSP Diagnostics.

Implicit Types (w : World) (cs : list callState) (c : nat) (u uri : string)
  (ds : list Diagnostic) (ws : list nat).


Lemma resolveCall_length ds cs c : length (resolveCall ds cs c) = length cs.
Proof.
  unfold resolveCall. destruct (cs !! c) as [[]|]; try reflexivity.
  apply length_insert.
Qed.

Lemma resolveCall_lookup ds cs c c' :
  resolveCall ds cs c !! c' =
  if decide (c = c') then
    (if suspended (cs !! c') then Some (Returned ds) else cs !! c')
  else cs !! c'.
Proof.
  unfold resolveCall. case_decide as Heq.
  - subst c'. destruct (cs !! c) as [[u dl| |]|] eqn:Hc; simpl; try done.
    apply list_lookup_insert_eq. by eapply lookup_lt_Some.
  - destruct (cs !! c) as [[]|]; try done.
    by apply list_lookup_insert_ne.
Qed.

Lemma foldl_resolveCall_lookup ds ws cs c :
  foldl (resolveCall ds) cs ws !! c =
  if suspended (cs !! c) && bool_decide (c ∈ ws)
  then Some (Returned ds) else cs !! c.
Proof.
  revert cs. induction ws as [|x ws IH]; intros cs; simpl.
  - rewrite andb_false_r. done.
  - rewrite IH, resolveCall_lookup.
    destruct (decide (x = c)) as [-> | Hx].
    + rewrite (bool_decide_eq_true_2 (c ∈ c :: ws)) by set_solver.
      destruct (suspended (cs !! c)) eqn:Hs; simpl.
      * by destruct (bool_decide (c ∈ ws)).
      * rewrite Hs. done.
    + destruct (suspended (cs !! c)); simpl; [| done].
      destruct (bool_decide (c ∈ ws)) eqn:Hin.
      * rewrite (bool_decide_eq_true_2 (c ∈ x :: ws)); [done |].
        apply bool_decide_eq_true in Hin. set_solver.
      * rewrite (bool_decide_eq_false_2 (c ∈ x :: ws)); [done |].
        apply bool_decide_eq_false in Hin.
        rewrite elem_of_cons. intros [-> | Hc]; done.
Qed.

(** *** The timers *)

Lemma timerFires_frame t w c :
  cache (dc (timerFires t w c)) = cache (dc w) /\
  client (timerFires t w c) = client w /\
  now (timerFires t w c) = now w /\
  length (calls (timerFires t w c)) = length (calls w).
Proof.
  unfold timerFires.
  destruct (calls w !! c) as [[u dl| |]|]; try done.
  destruct (dl <=? t)%N; [| done]. simpl.
  rewrite length_insert. done.
Qed.

Lemma timerFires_lookup t w c c' :
  calls (timerFires t w c) !! c' =
  if decide (c = c') then timedOut t (calls w !! c') else calls w !! c'.
Proof.
  unfold timerFires, timedOut, expired.
  destruct (decide (c = c')) as [<- | Hne].
  - destruct (calls w !! c) as [[u dl| |]|] eqn:Hc; try done.
    destruct (dl <=? t)%N; [| done]. simpl.
    apply list_lookup_insert_eq. by eapply lookup_lt_Some.
  - destruct (calls w !! c) as [[u dl| |]|] eqn:Hc; try done.
    destruct (dl <=? t)%N; [| done]. simpl.
    by apply list_lookup_insert_ne.
Qed.

Lemma timerFires_pending t w c u :
  pendingWaits (dc (timerFires t w c)) !! u = None \/
  pendingWaits (dc (timerFires t w c)) !! u = pendingWaits (dc w) !! u.
Proof.
  unfold timerFires.
  destruct (calls w !! c) as [[u' dl| |]|]; try (by right).
  destruct (dl <=? t)%N; [| by right]. simpl.
  destruct (decide (u' = u)) as [-> | Hne].
  - left. apply lookup_delete_eq.
  - right. by apply lookup_delete_ne.
Qed.

Lemma timerFires_discards t w c u dl :
  calls w !! c = Some (Waiting u dl) -> (dl <= t)%N ->
  pendingWaits (dc (timerFires t w c)) !! u = None.
Proof.
  intros Hc Hdl. unfold timerFires. rewrite Hc.
  apply N.leb_le in Hdl. rewrite Hdl. simpl. apply lookup_delete_eq.
Qed.

Lemma timers_frame t ids w :
  cache (dc (foldl (timerFires t) w ids)) = cache (dc w) /\
  client (foldl (timerFires t) w ids) = client w /\
  now (foldl (timerFires t) w ids) = now w /\
  length (calls (foldl (timerFires t) w ids)) = length (calls w).
Proof.
  revert w. induction ids as [|x ids IH]; intros w; simpl; [done |].
  destruct (IH (timerFires t w x)) as (-> & -> & -> & ->).
  apply timerFires_frame.
Qed.

Lemma timedOut_idem t o : timedOut t (timedOut t o) = timedOut t o.
Proof.
  unfold timedOut, expired. destruct o as [[u dl| |]|]; try done.
  destruct (dl <=? t)%N eqn:E; [done |]. by rewrite E.
Qed.

Lemma timers_lookup t ids w c :
  calls (foldl (timerFires t) w ids) !! c =
  if bool_decide (c ∈ ids) then timedOut t (calls w !! c) else calls w !! c.
Proof.
  revert w. induction ids as [|x ids IH]; intros w; simpl.
  - done.
  - rewrite IH, timerFires_lookup.
    destruct (decide (x = c)) as [-> | Hx].
    + rewrite (bool_decide_eq_true_2 (c ∈ c :: ids)) by (apply elem_of_cons; left; reflexivity).
      rewrite timedOut_idem. by destruct (bool_decide (c ∈ ids)).
    + destruct (bool_decide (c ∈ ids)) eqn:Hin.
      * rewrite (bool_decide_eq_true_2 (c ∈ x :: ids)); [done |].
        apply bool_decide_eq_true in Hin. apply elem_of_cons. by right.
      * rewrite (bool_decide_eq_false_2 (c ∈ x :: ids)); [done |].
        apply bool_decide_eq_false in Hin.
        rewrite elem_of_cons. intros [-> | Hc]; done.
Qed.

Lemma timers_pending t ids w u :
  pendingWaits (dc (foldl (timerFires t) w ids)) !! u = None \/
  pendingWaits (dc (foldl (timerFires t) w ids)) !! u = pendingWaits (dc w) !! u.
Proof.
  revert w. induction ids as [|x ids IH]; intros w; simpl; [by right |].
  destruct (IH (timerFires t w x)) as [H | H]; [by left |].
  rewrite H. apply timerFires_pending.
Qed.

Lemma timers_discard t ids w c u dl :
  c ∈ ids -> calls w !! c = Some (Waiting u dl) -> (dl <= t)%N ->
  pendingWaits (dc (foldl (timerFires t) w ids)) !! u = None.
Proof.
  revert w. induction ids as [|x ids IH]; intros w Hin Hc Hdl; simpl.
  - by apply elem_of_nil in Hin.
  - destruct (decide (x = c)) as [-> | Hx].
    + destruct (timers_pending t ids (timerFires t w c) u) as [H | H]; [done |].
      rewrite H. by eapply timerFires_discards.
    + apply IH; [| | done].
      * apply elem_of_cons in Hin as [-> | Hin]; done.
      * rewrite timerFires_lookup. by rewrite decide_False.
Qed.

(** *** The passage of time *)

Lemma advance_frame d w :
  cache (dc (advance d w)) = cache (dc w) /\
  client (advance d w) = client w /\
  now (advance d w) = (now w + d)%N /\
  length (calls (advance d w)) = length (calls w).
Proof.
  unfold advance.
  match goal with
  | |- context [foldl ?f ?w0 ?ids] =>
      destruct (timers_frame (now w + d)%N ids w0) as (-> & -> & -> & ->)
  end.
  done.
Qed.

Lemma advance_lookup d w c :
  calls (advance d w) !! c = timedOut (now w + d) (calls w !! c).
Proof.
  unfold advance. rewrite timers_lookup. simpl.
  case_bool_decide as Hin; [done |].
  rewrite lookup_ge_None_2; [done |].
  destruct (decide (c < length (calls w))%nat) as [Hlt | Hge]; [| lia].
  exfalso. apply Hin. apply elem_of_seq. lia.
Qed.

Lemma advance_pending d w u :
  pendingWaits (dc (advance d w)) !! u = None \/
  pendingWaits (dc (advance d w)) !! u = pendingWaits (dc w) !! u.
Proof.
  unfold advance.
  match goal with
  | |- context [foldl ?f ?w0 ?ids] =>
      destruct (timers_pending (now w + d)%N ids w0 u) as [H | H]
  end; [by left | by right].
Qed.

Lemma advance_discards d w c u dl :
  calls w !! c = Some (Waiting u dl) -> (dl <= now w + d)%N ->
  pendingWaits (dc (advance d w)) !! u = None.
Proof.
  intros Hc Hdl. unfold advance.
  eapply timers_discard; [| exact Hc | exact Hdl].
  apply elem_of_seq. apply lookup_lt_Some in Hc. lia.
Qed.

(** *** The methods *)

Lemma getDiagnostics_waits u f w :
  f = true \/ cache (dc w) !! u = None ->
  getDiagnostics u f w =
  ({| dc := {| cache := delete u (cache (dc w));
               pendingWaits :=
                 <[u := waitersOf w u ++ [length (calls w)]]> (pendingWaits (dc w)) |};
      calls := calls w ++ [Waiting u (now w + 5000)];
      now := now w;
      client := client w |},
   length (calls w)).
Proof.
  intros Hmiss. unfold getDiagnostics, waitForDiagnostics, waitersOf.
  destruct f; cbn [dc cache calls now client pendingWaits].
  - rewrite !lookup_delete_eq. done.
  - destruct Hmiss as [? | Hnone]; [done |].
    rewrite !Hnone. rewrite delete_id by done. done.
Qed.

Lemma getDiagnostics_cached u w ds :
  cache (dc w) !! u = Some ds ->
  getDiagnostics u false w =
  ({| dc := dc w; calls := calls w ++ [Returned ds];
      now := now w; client := client w |},
   length (calls w)).
Proof. intros Hhit. unfold getDiagnostics. by rewrite Hhit. Qed.

(** Either way the call is appended and nothing else in [calls] moves. *)
Lemma getDiagnostics_calls u f w :
  exists st, calls (fst (getDiagnostics u f w)) = calls w ++ [st] /\
             client (fst (getDiagnostics u f w)) = client w /\
             now (fst (getDiagnostics u f w)) = now w.
Proof.
  destruct (decide (f = true \/ cache (dc w) !! u = None)) as [Hmiss | Hhit].
  - rewrite getDiagnostics_waits by done. simpl. eauto.
  - destruct f; [tauto |].
    destruct (cache (dc w) !! u) as [ds|] eqn:Hc; [| tauto].
    rewrite (getDiagnostics_cached _ _ ds) by done. simpl. eauto.
Qed.

Lemma publishDiagnostics_lookup u ds w c :
  calls (publishDiagnostics u ds w) !! c =
  if suspended (calls w !! c) && bool_decide (c ∈ waitersOf w u)
  then Some (Returned ds) else calls w !! c.
Proof.
  unfold publishDiagnostics, waitersOf.
  destruct (pendingWaits (dc w) !! u) as [ws|]; cbn [calls default from_option id].
  - apply foldl_resolveCall_lookup.
  - rewrite bool_decide_eq_false_2 by apply not_elem_of_nil.
    by rewrite andb_false_r.
Qed.

Lemma publishDiagnostics_pending u ds w u' :
  pendingWaits (dc (publishDiagnostics u ds w)) !! u' =
  if decide (u = u') then None else pendingWaits (dc w) !! u'.
Proof.
  unfold publishDiagnostics.
  destruct (pendingWaits (dc w) !! u) as [ws|] eqn:Hu; simpl.
  - apply lookup_delete.
  - case_decide; [by subst | done].
Qed.

Lemma publishDiagnostics_frame u ds w :
  cache (dc (publishDiagnostics u ds w)) = <[u := ds]> (cache (dc w)) /\
  client (publishDiagnostics u ds w) = client w /\
  now (publishDiagnostics u ds w) = now w.
Proof.
  unfold publishDiagnostics.
  destruct (pendingWaits (dc w) !! u); done.
Qed.

(** *** The invariant *)

Lemma registeredAwait_new server : registeredAwait (newWorld server).
Proof. intros u ws c Hu. simpl in Hu. by rewrite lookup_empty in Hu. Qed.

Lemma registeredAwait_advance d w :
  registeredAwait w -> registeredAwait (advance d w).
Proof.
  intros Hwf u ws c Hu Hc.
  destruct (advance_pending d w u) as [H | H]; [congruence |].
  rewrite H in Hu.
  destruct (Hwf u ws c Hu Hc) as [dl Hdl].
  exists dl. rewrite advance_lookup, Hdl. unfold timedOut, expired.
  destruct (dl <=? now w + d)%N eqn:E; [| done].
  apply N.leb_le in E.
  rewrite (advance_discards d w c u dl Hdl E) in H. congruence.
Qed.

Lemma registeredAwait_get u f w :
  registeredAwait w -> registeredAwait (fst (getDiagnostics u f w)).
Proof.
  intros Hwf.
  destruct (decide (f = true \/ cache (dc w) !! u = None)) as [Hmiss | Hhit].
  - rewrite getDiagnostics_waits by done. simpl.
    intros u' ws c Hu Hc. simpl in Hu. unfold awaiting. simpl.
    destruct (decide (u = u')) as [<- | Hne].
    + rewrite lookup_insert_eq in Hu. injection Hu as <-.
      apply elem_of_app in Hc as [Hc | Hc].
      * unfold waitersOf in Hc.
        destruct (pendingWaits (dc w) !! u) as [ws|] eqn:Hws;
          [| by apply elem_of_nil in Hc].
        destruct (Hwf u ws c Hws Hc) as [dl Hdl]. exists dl.
        rewrite lookup_app_l; [done | by eapply lookup_lt_Some].
      * apply list_elem_of_singleton in Hc as ->.
        exists (now w + 5000)%N. by rewrite list_lookup_middle.
    + rewrite lookup_insert_ne in Hu by done.
      destruct (Hwf u' ws c Hu Hc) as [dl Hdl]. exists dl.
      rewrite lookup_app_l; [done | by eapply lookup_lt_Some].
  - destruct f; [tauto |].
    destruct (cache (dc w) !! u) as [ds|] eqn:Hcache; [| tauto].
    rewrite (getDiagnostics_cached _ _ ds) by done. simpl.
    intros u' ws c Hu Hc. simpl in Hu.
    destruct (Hwf u' ws c Hu Hc) as [dl Hdl]. exists dl. simpl.
    rewrite lookup_app_l; [done | by eapply lookup_lt_Some].
Qed.

Lemma registeredAwait_publish u ds w :
  registeredAwait w -> registeredAwait (publishDiagnostics u ds w).
Proof.
  intros Hwf u' ws c Hu Hc.
  rewrite publishDiagnostics_pending in Hu.
  destruct (decide (u = u')) as [<- | Hne]; [done |].
  destruct (Hwf u' ws c Hu Hc) as [dl Hdl]. exists dl.
  rewrite publishDiagnostics_lookup, Hdl. simpl.
  rewrite bool_decide_eq_false_2; [done |].
  unfold waitersOf. intros Hin.
  destruct (pendingWaits (dc w) !! u) as [wu|] eqn:Hwu;
    [| by apply elem_of_nil in Hin].
  destruct (Hwf u wu c Hwu Hin) as [dl' Hdl']. congruence.
Qed.

Lemma registeredAwait_clear u w :
  registeredAwait w -> registeredAwait (clearForFile u w).
Proof.
  intros Hwf u' ws c Hu Hc. simpl in Hu.
  apply lookup_delete_Some in Hu as [_ Hu].
  exact (Hwf u' ws c Hu Hc).
Qed.

Lemma registeredAwait_step w e :
  registeredAwait w -> registeredAwait (step w e).
Proof.
  intros Hwf. unfold step.
  apply (registeredAwait_advance (fst e)) in Hwf.
  destruct (snd e) as [u f | u ds | u |]; unfold act.
  - by apply registeredAwait_get.
  - by apply registeredAwait_publish.
  - by apply registeredAwait_clear.
  - done.
Qed.

Lemma registeredAwait_run script w :
  registeredAwait w -> registeredAwait (run w script).
Proof.
  revert w. induction script as [|e script IH]; intros w Hwf; simpl; [done |].
  apply IH. by apply registeredAwait_step.
Qed.

(** *** One call across the actions of others *)

Lemma act_settled a w c :
  is_Some (calls w !! c) -> suspended (calls w !! c) = false ->
  calls (act a w) !! c = calls w !! c.
Proof.
  intros Hsome Hset. destruct a as [u f | u ds | u |]; unfold act; try done.
  - destruct (getDiagnostics_calls u f w) as (st & -> & _).
    apply lookup_app_l. by apply lookup_lt_is_Some.
  - rewrite publishDiagnostics_lookup, Hset. done.
Qed.

Lemma act_waiting a w c u dl :
  registeredAwait w -> calls w !! c = Some (Waiting u dl) ->
  publishes u a = false ->
  calls (act a w) !! c = Some (Waiting u dl).
Proof.
  intros Hwf Hc Hquiet. destruct a as [u' f | u' ds | u' |]; unfold act; try done.
  - destruct (getDiagnostics_calls u' f w) as (st & -> & _).
    rewrite lookup_app_l; [done | by eapply lookup_lt_Some].
  - rewrite publishDiagnostics_lookup, Hc. simpl.
    rewrite bool_decide_eq_false_2; [done |].
    unfold waitersOf. intros Hin.
    destruct (pendingWaits (dc w) !! u') as [wu|] eqn:Hwu;
      [| by apply elem_of_nil in Hin].
    destruct (Hwf u' wu c Hwu Hin) as [dl' Hdl'].
    simpl in Hquiet. apply String.eqb_neq in Hquiet. congruence.
Qed.

Lemma act_frame a w :
  now (act a w) = now w /\ client (act a w) = client w.
Proof.
  destruct a as [u f | u ds | u |]; unfold act; try done.
  - destruct (getDiagnostics_calls u f w) as (st & _ & -> & ->). done.
  - destruct (publishDiagnostics_frame u ds w) as (_ & -> & ->). done.
Qed.

Lemma step_frame w e :
  now (step w e) = (now w + fst e)%N /\ client (step w e) = client w.
Proof.
  unfold step.
  destruct (act_frame (snd e) (advance (fst e) w)) as [-> ->].
  destruct (advance_frame (fst e) w) as (_ & -> & -> & _). done.
Qed.

Lemma run_frame script w :
  now (run w script) = (now w + duration script)%N /\
  client (run w script) = client w.
Proof.
  revert w. induction script as [|e script IH]; intros w; simpl.
  - split; [lia | done].
  - destruct (IH (step w e)) as [-> ->].
    destruct (step_frame w e) as [-> ->]. split; [lia | done].
Qed.

Lemma step_settled w e c st :
  calls w !! c = Some st -> suspended (Some st) = false ->
  calls (step w e) !! c = Some st.
Proof.
  intros Hc Hset. unfold step.
  assert (Hadv : calls (advance (fst e) w) !! c = Some st).
  { rewrite advance_lookup, Hc. unfold timedOut, expired.
    by destruct st. }
  rewrite act_settled; [done | by rewrite Hadv | by rewrite Hadv].
Qed.

Lemma run_settled script w c st :
  calls w !! c = Some st -> suspended (Some st) = false ->
  calls (run w script) !! c = Some st.
Proof.
  revert w. induction script as [|e script IH]; intros w Hc Hset; simpl; [done |].
  apply IH; [| done]. by apply step_settled.
Qed.

(** While nothing is pushed for its URI, a suspended call only moves when its
    own deadline passes. *)
Lemma step_waiting w e c u dl :
  registeredAwait w -> calls w !! c = Some (Waiting u dl) ->
  publishes u (snd e) = false ->
  calls (step w e) !! c = timedOut (now w + fst e) (Some (Waiting u dl)).
Proof.
  intros Hwf Hc Hquiet. unfold step.
  pose proof (advance_lookup (fst e) w c) as Hadv. rewrite Hc in Hadv.
  unfold timedOut, expired in *.
  destruct (dl <=? now w + fst e)%N.
  - rewrite act_settled; [done | by rewrite Hadv | by rewrite Hadv].
  - eapply act_waiting; [by apply registeredAwait_advance | done | done].
Qed.

Lemma run_waiting script w c u dl :
  registeredAwait w -> calls w !! c = Some (Waiting u dl) ->
  quietOn u script = true ->
  (now w + duration script < dl)%N ->
  calls (run w script) !! c = Some (Waiting u dl).
Proof.
  revert w. induction script as [|e script IH]; intros w Hwf Hc Hquiet Hdur;
    simpl in *; [done |].
  apply andb_true_iff in Hquiet as [He Hquiet].
  apply negb_true_iff in He.
  apply IH; [by apply registeredAwait_step | | done |].
  - rewrite (step_waiting w e c u dl) by done.
    unfold timedOut, expired.
    destruct (dl <=? now w + fst e)%N eqn:E; [| done].
    apply N.leb_le in E. lia.
  - destruct (step_frame w e) as [-> _]. lia.
Qed.

(** *** No call ever throws *)

Lemma neverThrew_advance d w : neverThrew w -> neverThrew (advance d w).
Proof.
  intros Hw c e. rewrite advance_lookup. unfold timedOut.
  destruct (expired _ _); [done | apply Hw].
Qed.

Lemma neverThrew_act a w : neverThrew w -> neverThrew (act a w).
Proof.
  intros Hw c e. destruct a as [u f | u ds | u |]; unfold act; try apply Hw.
  - destruct (decide (f = true \/ cache (dc w) !! u = None)) as [Hmiss | Hhit].
    + rewrite getDiagnostics_waits by done. simpl.
      intros H. apply lookup_snoc_Some in H as [[_ H] | [_ H]]; [| done].
      by apply Hw in H.
    + destruct f; [tauto |].
      destruct (cache (dc w) !! u) as [ds|] eqn:Hc; [| tauto].
      rewrite (getDiagnostics_cached _ _ ds) by done. simpl.
      intros H. apply lookup_snoc_Some in H as [[_ H] | [_ H]]; [| done].
      by apply Hw in H.
  - rewrite publishDiagnostics_lookup.
    destruct (_ && _); [done | apply Hw].
Qed.

Lemma neverThrew_run script w : neverThrew w -> neverThrew (run w script).
Proof.
  revert w. induction script as [|e script IH]; intros w Hw; simpl; [done |].
  apply IH. unfold step. by apply neverThrew_act, neverThrew_advance.
Qed.

Lemma neverThrew_new server : neverThrew (newWorld server).
Proof. intros c e. simpl. by rewrite lookup_nil. Qed.

End DiagnosticsFacts.
Section DiagnosticsTheorems.
Import LSP Diagnostics DiagnosticsFixtures.

Implicit Types (w : World) (c : nat) (u : string) (ds : list Diagnostic).

Example cached_value_returned_at_once :
  calls (run freshWorld [(0%N, Publish testUri mockDiagnostics);
                         (50%N, Get testUri false)])
  = [Returned mockDiagnostics].
Proof. reflexivity. Qed.

Example waits_for_the_push :
  calls (run freshWorld [(0%N, Get testUri false);
                         (100%N, Publish testUri mockDiagnostics)])
  = [Returned mockDiagnostics].
Proof. reflexivity. Qed.

Example force_refresh_test :
  calls (run freshWorld (cachedThenRefresh ++ [(50%N, Publish testUri newDiagnostics)]))
  = [Returned newDiagnostics].
Proof. reflexivity. Qed.


(** A push resolves whoever is in the waiter list and drops the list. *)
Lemma publish_resolves w u ds c :
  registeredAwait w ->
  c ∈ waitersOf w u ->
  awaiting w c u /\
  calls (publishDiagnostics u ds w) !! c = Some (Returned ds) /\
  pendingWaits (dc (publishDiagnostics u ds w)) !! u = None /\
  cache (dc (publishDiagnostics u ds w)) !! u = Some ds.
Proof.
  intros Hwf Hin.
  assert (Haw : awaiting w c u).
  { unfold waitersOf in Hin.
    destruct (pendingWaits (dc w) !! u) as [ws|] eqn:Hws;
      [| by apply elem_of_nil in Hin].
    exact (Hwf u ws c Hws Hin). }
  split; [exact Haw |]. destruct Haw as [dl Hdl].
  split.
  { rewrite publishDiagnostics_lookup, Hdl. simpl.
    by rewrite bool_decide_eq_true_2. }
  split.
  { rewrite publishDiagnostics_pending. by rewrite decide_True. }
  destruct (publishDiagnostics_frame u ds w) as (-> & _).
  apply lookup_insert_eq.
Qed.


(** Callers that ask for an uncached [u] one after the other in one turn of
    the event loop are all suspended and in the waiter list. *)
Lemma getDiagnostics_registers u f w :
  f = true \/ cache (dc w) !! u = None ->
  cache (dc (fst (getDiagnostics u f w))) !! u = None /\
  length (calls (fst (getDiagnostics u f w))) = S (length (calls w)) /\
  waitersOf (fst (getDiagnostics u f w)) u = waitersOf w u ++ [length (calls w)].
Proof.
  intros Hmiss. rewrite getDiagnostics_waits by done.
  cbn [fst dc cache calls].
  split; [apply lookup_delete_eq |].
  split; [rewrite length_app; simpl; lia |].
  unfold waitersOf at 1. cbn [dc pendingWaits].
  by rewrite lookup_insert_eq.
Qed.

Lemma askAll_registers u (flags : list bool) w :
  cache (dc w) !! u = None ->
  cache (dc (askAll u flags w)) !! u = None /\
  length (calls (askAll u flags w)) = (length (calls w) + length flags)%nat /\
  waitersOf (askAll u flags w) u
  = waitersOf w u ++ seq (length (calls w)) (length flags).
Proof.
  revert w. induction flags as [|f flags IH]; intros w Hmiss.
  - cbn [askAll foldl length seq]. split; [done |]. split; [lia |].
    by rewrite app_nil_r.
  - change (askAll u (f :: flags) w)
      with (askAll u flags (fst (getDiagnostics u f w))).
    destruct (getDiagnostics_registers u f w (or_intror Hmiss))
      as (Hc & Hlen & Hreg).
    destruct (IH _ Hc) as (Hc1 & Hlen1 & Hreg1).
    split; [done |]. split; [cbn [length]; lia |].
    rewrite Hreg1, Hreg, Hlen. cbn [length seq].
    by rewrite <- app_assoc.
Qed.

Lemma registeredAwait_askAll u flags w :
  registeredAwait w -> registeredAwait (askAll u flags w).
Proof.
  revert w. induction flags as [|f flags IH]; intros w Hwf; [done |].
  apply IH. by apply registeredAwait_get.
Qed.

(** The scenario of the claim with nothing in between: however many callers
    ask for an uncached [u] in one turn, the next push resolves them all. *)
Lemma concurrent_callers_resolved_together server script u flags ds i :
  cache (dc (run (newWorld server) script)) !! u = None ->
  (i < length flags)%nat ->
  calls (publishDiagnostics u ds (askAll u flags (run (newWorld server) script)))
    !! (length (calls (run (newWorld server) script)) + i)%nat
  = Some (Returned ds).
Proof.
  intros Hmiss Hi. set (w := run (newWorld server) script) in *.
  destruct (askAll_registers u flags w Hmiss) as (_ & _ & Hreg).
  eapply publish_resolves.
  - apply registeredAwait_askAll, registeredAwait_run, registeredAwait_new.
  - rewrite Hreg. apply elem_of_app. right. apply elem_of_seq. lia.
Qed.

(** C3.  A call that finds no cached entry for [u] after the optional
    eviction is suspended with a deadline 5000 ms ahead.  If no push for [u]
    arrives before the deadline ([pre] is what happens before it, [d] the
    delay that reaches it), then the call is still suspended just before,
    and once the timers have fired it has returned the empty sequence, the
    waiter list of [u] is gone, the call keeps that result whatever comes
    later, and no call at all ever ends in an error. *)
Theorem wait_elapsed_returns_empty
    server script u (forceRefresh : bool) pre d :
  forceRefresh = true \/
    cache (dc (run (newWorld server) script)) !! u = None ->
  quietOn u pre = true ->
  (duration pre < 5000)%N ->
  (5000 <= duration pre + d)%N ->
  let w0 := run (newWorld server) script in
  let w1 := fst (getDiagnostics u forceRefresh w0) in
  let c := snd (getDiagnostics u forceRefresh w0) in
  let w2 := advance d (run w1 pre) in
  calls w1 !! c = Some (Waiting u (now w0 + 5000)) /\
  awaiting (run w1 pre) c u /\
  calls w2 !! c = Some (Returned []) /\
  pendingWaits (dc w2) !! u = None /\
  (forall later, calls (run w2 later) !! c = Some (Returned [])) /\
  (forall later, neverThrew (run w2 later)).
Proof.
  intros Hmiss Hquiet Hbefore Hafter w0 w1 c w2.
  assert (Hwf1 : registeredAwait w1)
    by apply registeredAwait_get, registeredAwait_run, registeredAwait_new.
  assert (Hc1 : calls w1 !! c = Some (Waiting u (now w0 + 5000))).
  { subst w1 c. rewrite getDiagnostics_waits by done. simpl.
    by rewrite list_lookup_middle. }
  assert (Hnow1 : now w1 = now w0).
  { subst w1. rewrite getDiagnostics_waits by done. done. }
  assert (Hpre : calls (run w1 pre) !! c = Some (Waiting u (now w0 + 5000))).
  { apply run_waiting; try done. lia. }
  assert (Hnowpre : now (run w1 pre) = (now w0 + duration pre)%N).
  { destruct (run_frame pre w1) as [-> _]. by rewrite Hnow1. }
  assert (Hc2 : calls w2 !! c = Some (Returned [])).
  { subst w2. rewrite advance_lookup, Hpre, Hnowpre.
    unfold timedOut, expired.
    destruct (now w0 + 5000 <=? now w0 + duration pre + d)%N eqn:E; [done |].
    apply N.leb_gt in E. lia. }
  split; [done |]. split; [by eexists |]. split; [done |].
  split.
  { subst w2. eapply advance_discards; [exact Hpre |]. rewrite Hnowpre. lia. }
  split.
  { intros later. by apply run_settled. }
  intros later. apply neverThrew_run, neverThrew_advance, neverThrew_run.
  subst w1. apply (neverThrew_act (Get u forceRefresh)).
  apply neverThrew_run, neverThrew_new.
Qed.

(** Where the result of a suspended call can come from. *)
Lemma result_of_wait later w c u dl :
  registeredAwait w -> calls w !! c = Some (Waiting u dl) ->
  calls (run w later) !! c = Some (Waiting u dl) \/
  calls (run w later) !! c = Some (Returned []) \/
  exists d ds, (d, Publish u ds) ∈ later /\
               calls (run w later) !! c = Some (Returned ds).
Proof.
  revert w. induction later as [|e later IH]; intros w Hwf Hc; simpl;
    [by left |].
  assert (Hwf' : registeredAwait (step w e)) by by apply registeredAwait_step.
  assert (Hstep :
    calls (step w e) !! c = Some (Waiting u dl) \/
    calls (step w e) !! c = Some (Returned []) \/
    exists ds, snd e = Publish u ds /\
               calls (step w e) !! c = Some (Returned ds)).
  { destruct (publishes u (snd e)) eqn:Hpub.
    - destruct e as [d [u' f | u' ds | u' |]]; simpl in Hpub; try done.
      apply String.eqb_eq in Hpub as ->.
      unfold step. cbn [fst snd act].
      rewrite publishDiagnostics_lookup, advance_lookup, Hc.
      unfold timedOut, expired.
      destruct (dl <=? now w + d)%N; simpl; [by right; left |].
      destruct (bool_decide _); [| by left].
      right; right. by exists ds.
    - rewrite (step_waiting w e c u dl) by done.
      unfold timedOut, expired.
      destruct (dl <=? now w + fst e)%N; [by right; left | by left]. }
  destruct Hstep as [Hw | [Hr | (ds & He & Hr)]].
  - destruct (IH (step w e) Hwf' Hw) as [H | [H | (d & ds & Hin & H)]].
    + by left.
    + by right; left.
    + right; right. exists d, ds. split; [| done].
      apply elem_of_cons. by right.
  - right; left. by apply run_settled.
  - right; right. exists (fst e), ds. split.
    + apply elem_of_cons. left. destruct e as [d a]. simpl in *. by subst.
    + by apply run_settled.
Qed.


End DiagnosticsTheorems.

(** *** The theorems above at concrete scripts, and the limits of C1 and C5 *)

Section DiagnosticsWitnesses.
Import LSP Diagnostics DiagnosticsFixtures.



(** The same happens without [clearForFile] when the wait of an earlier
    caller elapses: its [catch] block deletes the whole waiter list, and a
    push 500 ms later resolves neither of the two callers still suspended. *)
Example later_callers_dropped_by_earlier_timeout :
  calls (run freshWorld staggeredCallers)
  = [Returned []; Waiting testUri 8000; Waiting testUri 8000] /\
  waitersOf (run freshWorld staggeredCallers) testUri = [] /\
  calls (run freshWorld (staggeredCallers ++ [(500%N, Publish testUri mockDiagnostics)]))
  = [Returned []; Waiting testUri 8000; Waiting testUri 8000] /\
  calls (run freshWorld (staggeredCallers ++ [(500%N, Publish testUri mockDiagnostics);
                                             (2500%N, Idle)]))
  = [Returned []; Returned []; Returned []].
Proof. repeat split; reflexivity. Qed.

Lemma wait_elapsed_returns_empty_witness :
  calls (advance 4900
           (run (fst (getDiagnostics testUri false freshWorld))
                [(100%N, Get "file:///other.cpp" false)]))
    !! 0%nat = Some (Returned []) /\
  pendingWaits
    (dc (advance 4900
           (run (fst (getDiagnostics testUri false freshWorld))
                [(100%N, Get "file:///other.cpp" false)])))
    !! testUri = None.
Proof.
  destruct (wait_elapsed_returns_empty
              (fun _ => Rejected ConnectionClosed) [] testUri false
              [(100%N, Get "file:///other.cpp" false)] 4900%N)
    as (_ & _ & Hres & Hgone & _).
  - right. reflexivity.
  - reflexivity.
  - reflexivity.
  - vm_compute. discriminate.
  - split; [exact Hres | exact Hgone].
Defined.



End DiagnosticsWitnesses.

(** ** The open-document tracker *)

Section TrackerFacts.
Import Tracker.

Implicit Types (t : FileTracker) (m : gmap string OpenDocument)
  (p q v path : string) (d : OpenDocument) (h : list string) (ops : list op).

(** *** The history of touches *)

Lemma lastTouch_lookup h p i :
  lastTouch h p = Some i -> h !! i = Some p.
Proof.
  revert i. induction h as [|q h IH]; intros i; simpl; [done |].
  destruct (lastTouch h p) as [j|] eqn:Hj.
  - intros [= <-]. simpl. by apply IH.
  - destruct (String.eqb q p) eqn:E; [| done].
    intros [= <-]. apply String.eqb_eq in E. by subst.
Qed.

Lemma lastTouch_later h p i j :
  lastTouch h p = Some i -> (i < j)%nat -> h !! j <> Some p.
Proof.
  revert i j. induction h as [|q h IH]; intros i j; simpl; [done |].
  destruct (lastTouch h p) as [k|] eqn:Hk.
  - intros [= <-] Hlt. destruct j as [|j]; [lia |]. simpl.
    eapply IH; [done | lia].
  - destruct (String.eqb q p) eqn:E; [| done].
    intros [= <-] Hlt. destruct j as [|j]; [lia |]. simpl.
    intros Hj. clear IH E Hlt.
    revert j Hj Hk. induction h as [|r h IH]; intros j Hj Hk; [done |].
    simpl in Hk. destruct (lastTouch h p) eqn:Hh; [done |].
    destruct (String.eqb r p) eqn:E; [done |].
    destruct j as [|j]; simpl in Hj.
    + injection Hj as ->. by rewrite String.eqb_refl in E.
    + by eapply IH.
Qed.

Lemma lastTouch_snoc h p q :
  lastTouch (h ++ [p]) q =
  if decide (q = p) then Some (length h) else lastTouch h q.
Proof.
  induction h as [|r h IH]; simpl.
  - case_decide as Hq.
    + subst. by rewrite String.eqb_refl.
    + destruct (String.eqb p q) eqn:E; [| done].
      apply String.eqb_eq in E. by subst.
  - rewrite IH. case_decide; [done |]. done.
Qed.

Lemma touches_snoc ops o : touches (ops ++ [o]) = touches ops ++ touches [o].
Proof. unfold touches. apply omap_app. Qed.

Lemma run_snoc t ops o : run t (ops ++ [o]) = apply (run t ops) o.
Proof. unfold run. apply foldl_snoc. Qed.

(** *** Choosing the victim *)

Lemma foldl_older (rest : list (string * OpenDocument)) x :
  foldl older x rest ∈ x :: rest /\
  forall y, y ∈ x :: rest ->
    (lastAccess (snd (foldl older x rest)) <= lastAccess (snd y))%nat.
Proof.
  revert x. induction rest as [|z rest IH]; intros x; simpl.
  - split; [apply elem_of_cons; by left |].
    intros y Hy. apply list_elem_of_singleton in Hy as ->. lia.
  - destruct (IH (older x z)) as [Hin Hle].
    assert (Hold : older x z ∈ [x; z] /\
                   (lastAccess (snd (older x z)) <= lastAccess (snd x))%nat /\
                   (lastAccess (snd (older x z)) <= lastAccess (snd z))%nat).
    { unfold older.
      destruct (lastAccess (snd x) <=? lastAccess (snd z))%nat eqn:E.
      - apply Nat.leb_le in E. split; [apply elem_of_cons; by left | lia].
      - apply Nat.leb_gt in E.
        split; [apply elem_of_cons; right; apply elem_of_cons; by left | lia]. }
    destruct Hold as (Hmem & Hx & Hz).
    split.
    + apply elem_of_cons in Hin as [-> | Hin].
      * apply elem_of_cons in Hmem as [-> | Hmem]; [apply elem_of_cons; by left |].
        apply list_elem_of_singleton in Hmem as ->.
        apply elem_of_cons. right. apply elem_of_cons. by left.
      * apply elem_of_cons. right. apply elem_of_cons. by right.
    + intros y Hy.
      assert (Hbase : (lastAccess (snd (foldl older (older x z) rest))
                       <= lastAccess (snd (older x z)))%nat).
      { apply Hle. apply elem_of_cons. by left. }
      apply elem_of_cons in Hy as [-> | Hy]; [lia |].
      apply elem_of_cons in Hy as [-> | Hy]; [lia |].
      apply Hle. apply elem_of_cons. by right.
Qed.

Lemma leastRecentlyUsed_spec m v dv :
  leastRecentlyUsed m = Some (v, dv) ->
  m !! v = Some dv /\
  forall q dq, m !! q = Some dq -> (lastAccess dv <= lastAccess dq)%nat.
Proof.
  unfold leastRecentlyUsed.
  destruct (map_to_list m) as [|x rest] eqn:Hl; [done |].
  intros [= Hv]. destruct (foldl_older rest x) as [Hin Hle].
  rewrite Hv, <- Hl in Hin. rewrite Hv in Hle.
  split; [by apply elem_of_map_to_list in Hin |].
  intros q dq Hq.
  apply (Hle (q, dq)). rewrite <- Hl. by apply elem_of_map_to_list.
Qed.

Lemma leastRecentlyUsed_some m :
  (0 < size m)%nat -> is_Some (leastRecentlyUsed m).
Proof.
  intros Hsz. unfold leastRecentlyUsed.
  destruct (map_to_list m) as [|x rest] eqn:Hl; [| by eexists].
  rewrite <- length_map_to_list, Hl in Hsz. simpl in Hsz. lia.
Qed.

(** *** Frame facts *)

Lemma closeTracked_frame p d t :
  maxOpenFiles (closeTracked p d t) = maxOpenFiles t /\
  clock (closeTracked p d t) = clock t /\
  onClosed (closeTracked p d t) = onClosed t.
Proof. done. Qed.

Lemma evict_frame t :
  maxOpenFiles (evictLeastRecentlyUsed t) = maxOpenFiles t /\
  clock (evictLeastRecentlyUsed t) = clock t /\
  onClosed (evictLeastRecentlyUsed t) = onClosed t.
Proof.
  unfold evictLeastRecentlyUsed.
  destruct (leastRecentlyUsed (openFiles t)) as [[v dv]|]; done.
Qed.

Lemma closeAll_fold_frame (l : list (string * OpenDocument)) t :
  maxOpenFiles (foldl (fun t e => closeTracked (fst e) (snd e) t) t l)
    = maxOpenFiles t /\
  clock (foldl (fun t e => closeTracked (fst e) (snd e) t) t l) = clock t /\
  onClosed (foldl (fun t e => closeTracked (fst e) (snd e) t) t l) = onClosed t.
Proof.
  revert t. induction l as [|e l IH]; intros t; simpl; [done |].
  destruct (IH (closeTracked (fst e) (snd e) t)) as (-> & -> & ->). done.
Qed.

Lemma ensureFileOpen_capacity p disk t :
  maxOpenFiles (fst (ensureFileOpen p disk t)) = maxOpenFiles t.
Proof.
  unfold ensureFileOpen. destruct disk as [text|]; [| done].
  destruct (openFiles t !! p); [done |]. simpl.
  destruct (maxOpenFiles t <=? size (openFiles t))%nat; [| done].
  apply evict_frame.
Qed.

Lemma apply_capacity t o : maxOpenFiles (apply t o) = maxOpenFiles t.
Proof.
  destruct o as [p disk | p | | k]; unfold apply.
  - apply ensureFileOpen_capacity.
  - unfold closeFile. by destruct (openFiles t !! p).
  - unfold closeAll. simpl. apply closeAll_fold_frame.
  - done.
Qed.

Lemma run_capacity ops t : maxOpenFiles (run t ops) = maxOpenFiles t.
Proof.
  revert t. induction ops as [|o ops IH]; intros t; simpl; [done |].
  rewrite IH. apply apply_capacity.
Qed.

(** *** The tracked documents follow the history *)

Lemma follows_new cap : follows [] (newTracker cap).
Proof. split; [done |]. intros p d H. simpl in H. by rewrite lookup_empty in H. Qed.

Lemma follows_delete h t p d :
  follows h t -> follows h (closeTracked p d t).
Proof.
  intros [Hclock Hdocs]. split; [done |].
  intros q dq Hq. simpl in Hq.
  apply lookup_delete_Some in Hq as [_ Hq]. by apply Hdocs.
Qed.

Lemma follows_evict h t :
  follows h t -> follows h (evictLeastRecentlyUsed t).
Proof.
  intros Hf. unfold evictLeastRecentlyUsed.
  destruct (leastRecentlyUsed (openFiles t)) as [[v dv]|]; [| done].
  by apply follows_delete.
Qed.

Lemma follows_ensureFileOpen h t p text :
  follows h t -> follows (h ++ [p]) (fst (ensureFileOpen p (Some text) t)).
Proof.
  intros Hf. unfold ensureFileOpen.
  destruct (openFiles t !! p) as [d|] eqn:Hp; simpl.
  - destruct Hf as [Hclock Hdocs]. split.
    + simpl. rewrite length_app. simpl. lia.
    + intros q dq Hq. simpl in Hq. rewrite lastTouch_snoc.
      destruct (decide (q = p)) as [-> | Hne].
      * rewrite lookup_insert_eq in Hq. injection Hq as <-. simpl.
        split; [by apply (Hdocs p d) | by rewrite Hclock].
      * rewrite lookup_insert_ne in Hq by done. by apply Hdocs.
  - assert (Hf1 : follows h (if (maxOpenFiles t <=? size (openFiles t))%nat
                             then evictLeastRecentlyUsed t else t)).
    { destruct (_ <=? _)%nat; [by apply follows_evict | done]. }
    destruct Hf1 as [Hclock Hdocs]. split.
    + simpl. rewrite length_app. simpl. lia.
    + intros q dq Hq. simpl in Hq. rewrite lastTouch_snoc.
      destruct (decide (q = p)) as [-> | Hne].
      * rewrite lookup_insert_eq in Hq. injection Hq as <-. simpl.
        split; [done | by rewrite Hclock].
      * rewrite lookup_insert_ne in Hq by done. by apply Hdocs.
Qed.

Lemma follows_apply h t o :
  follows h t -> follows (h ++ touches [o]) (apply t o).
Proof.
  intros Hf. destruct o as [p [text|] | p | | k]; unfold apply; simpl.
  - by apply follows_ensureFileOpen.
  - by rewrite app_nil_r.
  - rewrite app_nil_r. unfold closeFile.
    destruct (openFiles t !! p); [by apply follows_delete | done].
  - rewrite app_nil_r. unfold closeAll.
    destruct (closeAll_fold_frame (map_to_list (openFiles t)) t) as (_ & Hc & _).
    split; [simpl; rewrite Hc; apply Hf |].
    intros q dq Hq. simpl in Hq. by rewrite lookup_empty in Hq.
  - rewrite app_nil_r. destruct Hf as [Hclock Hdocs]. split; done.
Qed.

Lemma follows_run cap ops : follows (touches ops) (run (newTracker cap) ops).
Proof.
  induction ops as [|o ops IH] using rev_ind.
  - apply follows_new.
  - rewrite touches_snoc, run_snoc. by apply follows_apply.
Qed.

(** Two tracked documents never share a timestamp. *)
Lemma follows_distinct h t p q d e :
  follows h t ->
  openFiles t !! p = Some d -> openFiles t !! q = Some e ->
  lastAccess d = lastAccess e -> p = q.
Proof.
  intros [_ Hdocs] Hp Hq Heq.
  destruct (Hdocs p d Hp) as [_ Hlp]. destruct (Hdocs q e Hq) as [_ Hlq].
  apply lastTouch_lookup in Hlp, Hlq. congruence.
Qed.

(** *** The bound *)

Lemma size_closeTracked p d t :
  (size (openFiles (closeTracked p d t)) <= size (openFiles t))%nat.
Proof. simpl. rewrite map_size_delete. destruct (openFiles t !! p); simpl; lia. Qed.

Lemma size_ensureFileOpen p disk t :
  (0 < maxOpenFiles t)%nat ->
  (size (openFiles t) <= maxOpenFiles t)%nat ->
  (size (openFiles (fst (ensureFileOpen p disk t))) <= maxOpenFiles t)%nat.
Proof.
  intros Hpos Hle. unfold ensureFileOpen. destruct disk as [text|]; [| done].
  destruct (openFiles t !! p) as [d|] eqn:Hp; simpl.
  - rewrite map_size_insert_Some; [done | by rewrite Hp].
  - destruct (maxOpenFiles t <=? size (openFiles t))%nat eqn:E.
    + apply Nat.leb_le in E.
      destruct (leastRecentlyUsed_some (openFiles t)) as [[v dv] Hv]; [lia |].
      unfold evictLeastRecentlyUsed. rewrite Hv. simpl.
      apply leastRecentlyUsed_spec in Hv as [Hv _].
      rewrite map_size_insert_None.
      * rewrite map_size_delete_Some by by rewrite Hv. lia.
      * apply lookup_delete_None. by right.
    + apply Nat.leb_gt in E. rewrite map_size_insert_None by done. lia.
Qed.

Lemma size_apply t o :
  (0 < maxOpenFiles t)%nat ->
  (size (openFiles t) <= maxOpenFiles t)%nat ->
  (size (openFiles (apply t o)) <= maxOpenFiles t)%nat.
Proof.
  intros Hpos Hle. destruct o as [p disk | p | | k]; unfold apply.
  - by apply size_ensureFileOpen.
  - unfold closeFile. destruct (openFiles t !! p); [| done].
    pose proof (size_closeTracked p o t). lia.
  - unfold closeAll. simpl. rewrite map_size_empty. lia.
  - done.
Qed.

Lemma size_run cap ops :
  (0 < cap)%nat -> (size (openFiles (run (newTracker cap) ops)) <= cap)%nat.
Proof.
  intros Hpos. induction ops as [|o ops IH] using rev_ind.
  - simpl. rewrite map_size_empty. lia.
  - rewrite run_snoc.
    pose proof (run_capacity ops (newTracker cap)) as Hcap. simpl in Hcap.
    pose proof (size_apply (run (newTracker cap) ops) o) as H.
    rewrite Hcap in H. apply H; done.
Qed.

End TrackerFacts.

Section TrackerTheorems.
Import Tracker.

Implicit Types (t : FileTracker) (p q v : string) (d : OpenDocument)
  (ops : list op).

(** What [ensureFileOpen] does on a path that is not tracked, by cases on the
    capacity. *)
Lemma ensureFileOpen_below_capacity t p text :
  openFiles t !! p = None ->
  (size (openFiles t) < maxOpenFiles t)%nat ->
  ensureFileOpen p (Some text) t =
  ({| maxOpenFiles := maxOpenFiles t;
      openFiles := <[p := freshDocument p (clock t)]> (openFiles t);
      clock := S (clock t);
      onClosed := onClosed t;
      trace := trace t ++ [DidOpen (pathToUri p) (languageIdOf p) 1 text] |},
   inl (pathToUri p)).
Proof.
  intros Hp Hlt. unfold ensureFileOpen. rewrite Hp.
  apply Nat.leb_gt in Hlt. rewrite Hlt. done.
Qed.

Lemma ensureFileOpen_at_capacity t p text v dv :
  openFiles t !! p = None ->
  (maxOpenFiles t <= size (openFiles t))%nat ->
  leastRecentlyUsed (openFiles t) = Some (v, dv) ->
  ensureFileOpen p (Some text) t =
  ({| maxOpenFiles := maxOpenFiles t;
      openFiles := <[p := freshDocument p (clock t)]> (delete v (openFiles t));
      clock := S (clock t);
      onClosed := onClosed t;
      trace := (trace t ++ [DidClose (docUri dv)] ++ notifyClosed t (docUri dv))
                 ++ [DidOpen (pathToUri p) (languageIdOf p) 1 text] |},
   inl (pathToUri p)).
Proof.
  intros Hp Hle Hv. unfold ensureFileOpen. rewrite Hp.
  apply Nat.leb_le in Hle. rewrite Hle.
  unfold evictLeastRecentlyUsed. rewrite Hv. done.
Qed.

Lemma ensureFileOpen_tracked t p text d :
  openFiles t !! p = Some d ->
  ensureFileOpen p (Some text) t =
  ({| maxOpenFiles := maxOpenFiles t;
      openFiles := <[p := touched d (clock t)]> (openFiles t);
      clock := S (clock t);
      onClosed := onClosed t;
      trace := trace t |},
   inl (docUri d)).
Proof. intros Hp. unfold ensureFileOpen. by rewrite Hp. Qed.

(** After a successful [ensureFileOpen] the path is tracked. *)
Lemma ensureFileOpen_tracks t p text :
  exists d, openFiles (fst (ensureFileOpen p (Some text) t)) !! p = Some d /\
            (openFiles t !! p = None -> docUri d = pathToUri p) /\
            (forall d0, openFiles t !! p = Some d0 -> docUri d = docUri d0).
Proof.
  unfold ensureFileOpen. destruct (openFiles t !! p) as [d0|] eqn:Hp; simpl.
  - eexists. rewrite lookup_insert_eq. split; [done |].
    split; [done |]. by intros ? [= <-].
  - eexists. rewrite lookup_insert_eq. split; [done |].
    split; [done | done].
Qed.

(** C4.  With a positive capacity, after any sequence of calls the number of
    tracked documents is at most the capacity.  When [ensureFileOpen] is then
    called at capacity for an existing file that is not tracked, exactly one
    document is evicted: the tracked one whose most recent touch is the
    oldest in the history of successful [ensureFileOpen] calls; its close
    notification is sent and the registered callback is invoked with its
    URI, both before the open notification of the new document.  Below
    capacity nothing is evicted. *)
Theorem lru_eviction_keeps_capacity cap ops :
  (0 < cap)%nat ->
  (size (openFiles (run (newTracker cap) ops)) <= cap)%nat /\
  (forall p text,
     openFiles (run (newTracker cap) ops) !! p = None ->
     (cap <= size (openFiles (run (newTracker cap) ops)))%nat ->
     exists v dv iv,
       openFiles (run (newTracker cap) ops) !! v = Some dv /\
       lastTouch (touches ops) v = Some iv /\
       (forall q dq,
          openFiles (run (newTracker cap) ops) !! q = Some dq -> q <> v ->
          exists iq, lastTouch (touches ops) q = Some iq /\ (iv < iq)%nat) /\
       trace (fst (ensureFileOpen p (Some text) (run (newTracker cap) ops)))
       = trace (run (newTracker cap) ops)
           ++ [DidClose (pathToUri v)]
           ++ notifyClosed (run (newTracker cap) ops) (pathToUri v)
           ++ [DidOpen (pathToUri p) (languageIdOf p) 1 text] /\
       openFiles (fst (ensureFileOpen p (Some text) (run (newTracker cap) ops)))
       = <[p := freshDocument p (length (touches ops))]>
           (delete v (openFiles (run (newTracker cap) ops)))) /\
  (forall p text,
     openFiles (run (newTracker cap) ops) !! p = None ->
     (size (openFiles (run (newTracker cap) ops)) < cap)%nat ->
     trace (fst (ensureFileOpen p (Some text) (run (newTracker cap) ops)))
     = trace (run (newTracker cap) ops)
         ++ [DidOpen (pathToUri p) (languageIdOf p) 1 text]).
Proof.
  intros Hpos. set (t := run (newTracker cap) ops).
  assert (Hcap : maxOpenFiles t = cap) by apply run_capacity.
  assert (Hf : follows (touches ops) t) by apply follows_run.
  split; [by apply size_run |]. split.
  - intros p text Hp Hfull.
    destruct (leastRecentlyUsed_some (openFiles t)) as [[v dv] Hv]; [lia |].
    destruct (leastRecentlyUsed_spec _ _ _ Hv) as [Hdv Hmin].
    destruct Hf as [Hclock Hdocs].
    destruct (Hdocs v dv Hdv) as [Huri Hlast].
    exists v, dv, (lastAccess dv).
    split; [done |]. split; [done |]. split.
    + intros q dq Hq Hne. destruct (Hdocs q dq Hq) as [_ Hlq].
      exists (lastAccess dq). split; [done |].
      pose proof (Hmin q dq Hq) as Hle.
      destruct (decide (lastAccess dv = lastAccess dq)) as [Heq | Hneq]; [| lia].
      exfalso. apply Hne. symmetry.
      by eapply (follows_distinct (touches ops) t v q dv dq).
    + rewrite (ensureFileOpen_at_capacity t p text v dv) by (done || lia).
      simpl. rewrite Huri, Hclock. split; [| done].
      by rewrite <- !app_assoc.
  - intros p text Hp Hlt.
    rewrite ensureFileOpen_below_capacity by (done || lia). done.
Qed.

(** C8.  For a file that exists, two [ensureFileOpen] calls in a row both return
    the URI of the path; the second call sends nothing, and all it changes
    is the timestamp of the document, which becomes the most recent of all
    tracked documents.  If the path was not tracked before, the two calls
    together send exactly one open notification (and none if it was). *)
Theorem ensureFileOpen_twice_opens_once cap ops p text1 text2 :
  let t := run (newTracker cap) ops in
  let t1 := fst (ensureFileOpen p (Some text1) t) in
  let t2 := fst (ensureFileOpen p (Some text2) t1) in
  snd (ensureFileOpen p (Some text1) t) = inl (pathToUri p) /\
  snd (ensureFileOpen p (Some text2) t1) = inl (pathToUri p) /\
  trace t2 = trace t1 /\
  opensSent (trace t2)
  = (opensSent (trace t)
     + match openFiles t !! p with Some _ => 0 | None => 1 end)%nat /\
  (exists d1, openFiles t1 !! p = Some d1 /\
              openFiles t2 = <[p := touched d1 (clock t1)]> (openFiles t1)) /\
  maxOpenFiles t2 = maxOpenFiles t1 /\
  onClosed t2 = onClosed t1 /\
  (forall q dq d2, q <> p ->
     openFiles t2 !! q = Some dq -> openFiles t2 !! p = Some d2 ->
     (lastAccess dq < lastAccess d2)%nat).
Proof.
  intros t t1 t2.
  assert (Hf : follows (touches ops) t) by apply follows_run.
  assert (Hf1 : follows (touches ops ++ [p]) t1)
    by by apply follows_ensureFileOpen.
  destruct (ensureFileOpen_tracks t p text1) as (d1 & Hd1 & _). fold t1 in Hd1.
  assert (Hsnd2 : ensureFileOpen p (Some text2) t1 =
                  ({| maxOpenFiles := maxOpenFiles t1;
                      openFiles := <[p := touched d1 (clock t1)]> (openFiles t1);
                      clock := S (clock t1);
                      onClosed := onClosed t1;
                      trace := trace t1 |}, inl (docUri d1)))
    by by apply ensureFileOpen_tracked.
  assert (Huri1 : docUri d1 = pathToUri p) by by apply (proj2 Hf1 p d1).
  split.
  { unfold ensureFileOpen. destruct (openFiles t !! p) as [d0|] eqn:Hp; simpl.
    - f_equal. by apply (proj2 Hf p d0).
    - done. }
  split; [by rewrite Hsnd2, <- Huri1 |].
  split; [subst t2; by rewrite Hsnd2 |].
  split.
  { subst t2. rewrite Hsnd2. cbn [fst trace]. subst t1.
    unfold ensureFileOpen. destruct (openFiles t !! p) as [d0|] eqn:Hp; simpl.
    - lia.
    - unfold opensSent. rewrite List.filter_app, length_app. simpl.
      destruct (maxOpenFiles t <=? size (openFiles t))%nat; [| lia].
      unfold evictLeastRecentlyUsed.
      destruct (leastRecentlyUsed (openFiles t)) as [[v dv]|]; [| lia].
      simpl. rewrite List.filter_app, length_app. simpl.
      unfold notifyClosed. destruct (onClosed t); simpl; lia. }
  split; [exists d1; split; [done | subst t2; by rewrite Hsnd2] |].
  split; [subst t2; by rewrite Hsnd2 |].
  split; [subst t2; by rewrite Hsnd2 |].
  intros q dq d2 Hne Hq Hp2. subst t2. rewrite Hsnd2 in Hq, Hp2.
  cbn [fst openFiles] in Hq, Hp2.
  rewrite lookup_insert_eq in Hp2. injection Hp2 as <-.
  rewrite lookup_insert_ne in Hq by done. simpl.
  destruct Hf1 as [Hclock Hdocs]. destruct (Hdocs q dq Hq) as [_ Hlq].
  apply lastTouch_lookup, lookup_lt_Some in Hlq. lia.
Qed.

(** C9.  [closeFile] on a path that is not tracked changes nothing at all:
    no notification, no callback, the same state.  On a tracked path it
    sends the close notification for the URI of the path, then invokes the
    registered callback with that URI, once, and removes the entry; nothing
    else changes. *)
Theorem closeFile_untracked_is_noop cap ops p :
  let t := run (newTracker cap) ops in
  (openFiles t !! p = None -> closeFile p t = t) /\
  (forall d, openFiles t !! p = Some d ->
     openFiles (closeFile p t) = delete p (openFiles t) /\
     trace (closeFile p t)
     = trace t ++ [DidClose (pathToUri p)] ++ notifyClosed t (pathToUri p) /\
     (forall k, onClosed t = Some k ->
        trace (closeFile p t)
        = trace t ++ [DidClose (pathToUri p); FileClosed k (pathToUri p)]) /\
     (onClosed t = None ->
        trace (closeFile p t) = trace t ++ [DidClose (pathToUri p)]) /\
     maxOpenFiles (closeFile p t) = maxOpenFiles t /\
     clock (closeFile p t) = clock t /\
     onClosed (closeFile p t) = onClosed t).
Proof.
  intros t.
  assert (Hf : follows (touches ops) t) by apply follows_run.
  split.
  - intros Hp. unfold closeFile. by rewrite Hp.
  - intros d Hp. unfold closeFile. rewrite Hp.
    destruct (proj2 Hf p d Hp) as [Huri _].
    unfold closeTracked. simpl. rewrite Huri.
    split; [done |]. split; [done |].
    split; [intros k Hk; unfold notifyClosed; by rewrite Hk |].
    split; [intros Hk; unfold notifyClosed; by rewrite Hk |].
    done.
Qed.

End TrackerTheorems.

Section TrackerWitnesses.
Import Tracker TrackerFixtures.

(** The eviction test: 100 files are open and nothing was closed; opening
    the 101st closes the first one and invokes the callback with its URI. *)
Example lru_eviction_test :
  opensSent (trace (run (newTracker MAX_OPEN_FILES) openHundred)) = 100%nat /\
  trace (fst (ensureFileOpen (fileN 100) (Some (contentN 100))
                (run (newTracker MAX_OPEN_FILES) openHundred)))
  = trace (run (newTracker MAX_OPEN_FILES) openHundred)
      ++ [DidClose "file:///tmp/file0.cpp"; FileClosed 0 "file:///tmp/file0.cpp";
          DidOpen "file:///tmp/file100.cpp" "cpp" 1 "int x100;"].
Proof. split; vm_compute; reflexivity. Qed.

Lemma lru_eviction_keeps_capacity_witness :
  (0 < MAX_OPEN_FILES)%nat /\
  (size (openFiles (run (newTracker MAX_OPEN_FILES) openHundred))
   <= MAX_OPEN_FILES)%nat /\
  exists v,
    is_Some (openFiles (run (newTracker MAX_OPEN_FILES) openHundred) !! v) /\
    trace (fst (ensureFileOpen (fileN 100) (Some (contentN 100))
                  (run (newTracker MAX_OPEN_FILES) openHundred)))
    = trace (run (newTracker MAX_OPEN_FILES) openHundred)
        ++ [DidClose (pathToUri v)]
        ++ notifyClosed (run (newTracker MAX_OPEN_FILES) openHundred) (pathToUri v)
        ++ [DidOpen (pathToUri (fileN 100)) (languageIdOf (fileN 100)) 1
              (contentN 100)].
Proof.
  assert (Hpos : (0 < MAX_OPEN_FILES)%nat) by (unfold MAX_OPEN_FILES; lia).
  destruct (lru_eviction_keeps_capacity MAX_OPEN_FILES openHundred Hpos)
    as (Hsize & Hevict & _).
  split; [exact Hpos |]. split; [exact Hsize |].
  destruct (Hevict (fileN 100) (contentN 100)) as (v & dv & iv & Hv & _ & _ & Htrace & _).
  - vm_compute. reflexivity.
  - vm_compute. lia.
  - exists v. split; [by eexists | exact Htrace].
Defined.

Lemma ensureFileOpen_twice_opens_once_witness :
  snd (ensureFileOpen testFile (Some testContent) (newTracker MAX_OPEN_FILES))
    = inl "file:///tmp/test.cpp" /\
  trace (fst (ensureFileOpen testFile (Some testContent)
                (fst (ensureFileOpen testFile (Some testContent)
                        (newTracker MAX_OPEN_FILES)))))
  = trace (fst (ensureFileOpen testFile (Some testContent) (newTracker MAX_OPEN_FILES))) /\
  opensSent (trace (fst (ensureFileOpen testFile (Some testContent)
                           (fst (ensureFileOpen testFile (Some testContent)
                                   (newTracker MAX_OPEN_FILES))))))
  = 1%nat.
Proof.
  destruct (ensureFileOpen_twice_opens_once MAX_OPEN_FILES [] testFile
              testContent testContent)
    as (Huri & _ & Hsame & Hopens & _).
  split; [exact Huri |]. split; [exact Hsame | exact Hopens].
Defined.

Lemma closeFile_untracked_is_noop_witness :
  closeFile testFile (onFileClosed 0 (newTracker MAX_OPEN_FILES))
  = onFileClosed 0 (newTracker MAX_OPEN_FILES).
Proof.
  destruct (closeFile_untracked_is_noop MAX_OPEN_FILES [OnFileClosed 0] testFile)
    as [Hnoop _].
  apply Hnoop. reflexivity.
Defined.

End TrackerWitnesses.

(* ===================================================================== *)
(** * Part III.  Further properties of the code                           *)
(* ===================================================================== *)

(** ** fetchTwoPhaseHierarchy *)

Section HierarchyMore.
Import JS LSP Hierarchy HierarchyNotions.

Variables (c : LSPClient) (pm im om uri : string) (pos : Position).

(** The guard of line 42 stops exactly the falsy values and the empty
    array. *)
Lemma guard_stops (items : value) :
  (negb (truthy items) || (isArray items && (arrayLength items =? 0)%nat)) = true
  <-> truthy items = false \/ items = VArr [].
Proof.
  split.
  - intros H. apply orb_true_iff in H as [H | H].
    + left. by apply negb_true_iff.
    + right. destruct items as [| | | | |l|]; try done.
      by destruct l.
  - intros [H | ->]; [by rewrite H | done].
Qed.

Lemma guard_cases (items : value) :
  (truthy items = false \/ items = VArr []) \/
  (truthy items = true /\ items <> VArr []).
Proof.
  destruct (truthy items) eqn:Ht; [| by left; left].
  destruct items as [| | | | |l|]; try (by right).
  destruct l; [by left; right | by right].
Qed.

(** The client and the outcome when the prepare request is rejected. *)
Lemma after_prepare_rejected (e : lsp_error) :
  respond c (prepareRequest c pm uri pos) = Rejected e ->
  fetchTwoPhaseHierarchy pm im om uri pos c
  = ({| respond := respond c; nextId := S (nextId c);
        sent := sent c ++ [prepareRequest c pm uri pos] |}, Rejected e).
Proof.
  intros Hresp.
  unfold fetchTwoPhaseHierarchy, andThen, lsp_request.
  fold (prepareRequest c pm uri pos). by rewrite Hresp.
Qed.

(** X1.  A rejection of the prepare request is the rejection of the fetch,
    with the same error; the prepare frame is the only one written and no
    relation request follows. *)
Theorem prepare_rejection_propagates (e : lsp_error) :
  respond c (prepareRequest c pm uri pos) = Rejected e ->
  snd (fetchTwoPhaseHierarchy pm im om uri pos c) = Rejected e /\
  sent (fst (fetchTwoPhaseHierarchy pm im om uri pos c))
  = sent c ++ [prepareRequest c pm uri pos] /\
  nextId (fst (fetchTwoPhaseHierarchy pm im om uri pos c)) = S (nextId c).
Proof.
  intros Hresp. by rewrite (after_prepare_rejected e Hresp).
Qed.

(** X2.  Once the prepare request is fulfilled the fetch is fulfilled too,
    whatever the two relation requests do, both failing included. *)
Theorem fulfilled_prepare_never_rejects (items : value) :
  respond c (prepareRequest c pm uri pos) = Fulfilled items ->
  isRejected (snd (fetchTwoPhaseHierarchy pm im om uri pos c)) = false /\
  (truthy items = true -> items <> VArr [] ->
   isRejected (respond c (incomingRequest c im
                 (if isArray items then index0 items else items))) = true ->
   isRejected (respond c (outgoingRequest c om
                 (if isArray items then index0 items else items))) = true ->
   snd (fetchTwoPhaseHierarchy pm im om uri pos c)
   = Fulfilled (Some {| item := if isArray items then index0 items else items;
                        incoming := VArr []; outgoing := VArr [] |})).
Proof.
  intros Hresp.
  destruct (guard_cases items) as [Hstop | [Ht Hne]].
  - rewrite (after_prepare_only c pm im om uri pos items Hresp)
      by by apply guard_stops.
    split; [done |]. intros Ht Hne. destruct Hstop; congruence.
  - rewrite (after_anchor c pm im om uri pos items Hresp Ht Hne).
    split; [done |]. intros _ _ Hin Hout. simpl.
    destruct (respond c (incomingRequest _ _ _)); [done |].
    destruct (respond c (outgoingRequest _ _ _)); [done |].
    done.
Qed.

(** X3.  A prepare result that is a single item, not an array, is the
    anchor itself: it is the [item] of both relation requests and of the
    result. *)
Theorem single_item_is_anchor (it : value) :
  respond c (prepareRequest c pm uri pos) = Fulfilled it ->
  truthy it = true ->
  isArray it = false ->
  exists res,
    snd (fetchTwoPhaseHierarchy pm im om uri pos c) = Fulfilled (Some res) /\
    item res = it /\
    sent (fst (fetchTwoPhaseHierarchy pm im om uri pos c))
    = sent c ++ [prepareRequest c pm uri pos;
                 {| req_id := S (nextId c); req_method := im;
                    req_params := VObj [("item", it)] |};
                 {| req_id := S (S (nextId c)); req_method := om;
                    req_params := VObj [("item", it)] |}].
Proof.
  intros Hresp Ht Harr.
  rewrite (after_anchor c pm im om uri pos it Hresp Ht);
    [| intros ->; discriminate].
  rewrite Harr. simpl. eexists. split; [done |]. split; done.
Qed.

(** X4.  The fetch answers null exactly when the prepare request is
    fulfilled with a falsy value or with an empty array. *)
Theorem not_found_iff :
  snd (fetchTwoPhaseHierarchy pm im om uri pos c) = Fulfilled None
  <-> exists items,
        respond c (prepareRequest c pm uri pos) = Fulfilled items /\
        (truthy items = false \/ items = VArr []).
Proof.
  split.
  - intros Hnone.
    destruct (respond c (prepareRequest c pm uri pos)) as [items | e] eqn:Hresp.
    + exists items. split; [done |].
      destruct (guard_cases items) as [? | [Ht Hne]]; [done |].
      by rewrite (after_anchor c pm im om uri pos items Hresp Ht Hne) in Hnone.
    + by rewrite (after_prepare_rejected e Hresp) in Hnone.
  - intros (items & Hresp & Hstop).
    rewrite (after_prepare_only c pm im om uri pos items Hresp)
      by by apply guard_stops.
    done.
Qed.

(** X5.  The frames written by one fetch: they are appended to those already
    written, they carry consecutive identifiers from the client's next one,
    and there are three of them when a hierarchy is returned and one
    otherwise (null or a rejection). *)
Theorem frames_of_a_fetch :
  exists frames,
    sent (fst (fetchTwoPhaseHierarchy pm im om uri pos c)) = sent c ++ frames /\
    req_id <$> frames = seq (nextId c) (length frames) /\
    nextId (fst (fetchTwoPhaseHierarchy pm im om uri pos c))
    = (nextId c + length frames)%nat /\
    length frames
    = (if foundHierarchy (snd (fetchTwoPhaseHierarchy pm im om uri pos c))
       then 3 else 1)%nat /\
    respond (fst (fetchTwoPhaseHierarchy pm im om uri pos c)) = respond c.
Proof.
  destruct (respond c (prepareRequest c pm uri pos)) as [items | e] eqn:Hresp.
  - destruct (guard_cases items) as [Hstop | [Ht Hne]].
    + rewrite (after_prepare_only c pm im om uri pos items Hresp)
        by by apply guard_stops.
      exists [prepareRequest c pm uri pos]. simpl.
      repeat split; try done. lia.
    + rewrite (after_anchor c pm im om uri pos items Hresp Ht Hne).
      eexists. simpl. split; [reflexivity |]. simpl.
      repeat split; try done. lia.
  - rewrite (after_prepare_rejected e Hresp).
    exists [prepareRequest c pm uri pos]. simpl.
    repeat split; try done. lia.
Qed.

(** X6.  Each side of the result depends on the response to its own request
    only: a truthy response is passed through unchanged, and a rejection, a
    falsy value and an empty array all give the same empty array. *)
Theorem side_of_result (items : value) :
  respond c (prepareRequest c pm uri pos) = Fulfilled items ->
  truthy items = true ->
  items <> VArr [] ->
  let it := if isArray items then index0 items else items in
  let rin := respond c (incomingRequest c im it) in
  let rout := respond c (outgoingRequest c om it) in
  exists res,
    snd (fetchTwoPhaseHierarchy pm im om uri pos c) = Fulfilled (Some res) /\
    (emptyLike rin = true -> incoming res = VArr []) /\
    (emptyLike rout = true -> outgoing res = VArr []) /\
    (forall v, rin = Fulfilled v -> truthy v = true -> incoming res = v) /\
    (forall v, rout = Fulfilled v -> truthy v = true -> outgoing res = v).
Proof.
  intros Hresp Ht Hne it rin rout.
  rewrite (after_anchor c pm im om uri pos items Hresp Ht Hne).
  fold it. fold rin. fold rout. simpl. eexists. split; [done |]. simpl.
  assert (Hempty : forall r, emptyLike r = true ->
            or_else match r with Fulfilled v => v | Rejected _ => VNull end
                    (VArr []) = VArr []).
  { intros [v | e]; [| done]. unfold or_else, emptyLike.
    destruct v as [| | b | n | s | l | f]; simpl; try done.
    - by destruct b.
    - by destruct (n =? 0).
    - by destruct (String.eqb s "").
    - by destruct l. }
  repeat split.
  - apply Hempty.
  - apply Hempty.
  - intros v -> Hv. unfold or_else. by rewrite Hv.
  - intros v -> Hv. unfold or_else. by rewrite Hv.
Qed.

End HierarchyMore.

(** ** DiagnosticsCache *)

Section DiagnosticsMore.
Import LSP Diagnostics DiagnosticsNotions.

Implicit Types (w : World) (c : nat) (u : string) (ds : list Diagnostic)
  (a : action) (script later : list (N * action)).

(** *** What writes the cache *)

Lemma getDiagnostics_cache u (f : bool) w :
  cache (dc (fst (getDiagnostics u f w)))
  = if f then delete u (cache (dc w)) else cache (dc w).
Proof.
  unfold getDiagnostics, waitForDiagnostics.
  destruct f; cbn [fst dc cache calls now client pendingWaits].
  - rewrite !lookup_delete_eq. done.
  - by destruct (cache (dc w) !! u).
Qed.

Lemma act_cache a w u :
  cache (dc (act a w)) !! u = cacheStep u (cache (dc w) !! u) a.
Proof.
  destruct a as [u' f | u' ds | u' |]; unfold act, cacheStep.
  - rewrite getDiagnostics_cache. destruct f; [| done].
    destruct (String.eqb_spec u' u) as [-> | Hne].
    + apply lookup_delete_eq.
    + by apply lookup_delete_ne.
  - destruct (publishDiagnostics_frame u' ds w) as (-> & _).
    destruct (String.eqb_spec u' u) as [-> | Hne].
    + apply lookup_insert_eq.
    + by apply lookup_insert_ne.
  - simpl. destruct (String.eqb_spec u' u) as [-> | Hne].
    + apply lookup_delete_eq.
    + by apply lookup_delete_ne.
  - done.
Qed.

(** The cached entry after a script, from the entry before it. *)
Lemma cache_after_run w u script :
  cache (dc (run w script)) !! u = cacheAfter u script (cache (dc w) !! u).
Proof.
  revert w. induction script as [|e script IH]; intros w; [done |].
  cbn [run foldl]. fold (run (step w e) script). rewrite IH.
  unfold cacheAfter at 2. cbn [foldl].
  fold (cacheAfter u script (cacheStep u (cache (dc w) !! u) (snd e))).
  f_equal. unfold step. rewrite act_cache.
  destruct (advance_frame (fst e) w) as (-> & _). done.
Qed.

(** X7.  The cached entry of a URI after any script is decided by the
    pushes, the [clearForFile] calls and the forced refreshes for that URI
    alone, the last of them winning: a push replaces the entry, the other
    two delete it.  Plain calls, elapsed waits and whatever concerns other
    URIs never change it. *)
Theorem cache_follows_pushes server script u :
  cache (dc (run (newWorld server) script)) !! u = cacheAfter u script None /\
  (forall w, cache (dc (run w script)) !! u
             = cacheAfter u script (cache (dc w) !! u)).
Proof.
  split; [| intros w; apply cache_after_run].
  rewrite cache_after_run. simpl. by rewrite lookup_empty.
Qed.

(** X8.  A plain call for a URI whose entry is cached returns that entry at
    once, however much time has passed since the push; no waiter is
    registered for it. *)
Theorem cached_entry_returned_at_once server script u ds d :
  cacheAfter u script None = Some ds ->
  calls (step (run (newWorld server) script) (d, Get u false))
    !! length (calls (run (newWorld server) script))
  = Some (Returned ds) /\
  pendingWaits (dc (step (run (newWorld server) script) (d, Get u false)))
  = pendingWaits (dc (advance d (run (newWorld server) script))).
Proof.
  intros Hhit. set (w := run (newWorld server) script).
  assert (Hc : cache (dc (advance d w)) !! u = Some ds).
  { destruct (advance_frame d w) as (-> & _). subst w.
    rewrite cache_after_run. simpl. by rewrite lookup_empty. }
  unfold step. cbn [fst snd act].
  rewrite (getDiagnostics_cached u (advance d w) ds Hc). cbn [fst calls dc].
  split; [| done].
  destruct (advance_frame d w) as (_ & _ & _ & <-).
  by rewrite list_lookup_middle.
Qed.

(** *** The size of the cache *)

Lemma size_act a w :
  (getCacheSize (act a w)
   <= getCacheSize w + match a with Publish _ _ => 1 | _ => 0 end)%nat.
Proof.
  unfold getCacheSize. destruct a as [u f | u ds | u |]; unfold act.
  - rewrite getDiagnostics_cache. destruct f; [| lia].
    rewrite map_size_delete. destruct (cache (dc w) !! u); simpl; lia.
  - destruct (publishDiagnostics_frame u ds w) as (-> & _).
    rewrite map_size_insert. destruct (cache (dc w) !! u); simpl; lia.
  - simpl. rewrite map_size_delete. destruct (cache (dc w) !! u); simpl; lia.
  - lia.
Qed.

(** X9.  [getCacheSize] counts a URI once however often it is pushed, and
    never exceeds the number of pushes received. *)
Theorem cache_size_bounded_by_pushes server script :
  (getCacheSize (run (newWorld server) script) <= pushes script)%nat /\
  (forall w u ds,
     getCacheSize (publishDiagnostics u ds w)
     = match cache (dc w) !! u with
       | Some _ => getCacheSize w
       | None => S (getCacheSize w)
       end).
Proof.
  split.
  - assert (H : forall w, (getCacheSize (run w script)
                           <= getCacheSize w + pushes script)%nat).
    { induction script as [|e script IH]; intros w; [simpl; lia |].
      cbn [run foldl]. fold (run (step w e) script).
      specialize (IH (step w e)).
      assert (Hstep : (getCacheSize (step w e)
                       <= getCacheSize w
                          + match snd e with Publish _ _ => 1 | _ => 0 end)%nat).
      { unfold step. pose proof (size_act (snd e) (advance (fst e) w)) as H.
        unfold getCacheSize in *.
        destruct (advance_frame (fst e) w) as (Hc & _). by rewrite Hc in H. }
      unfold pushes in *. cbn [List.filter].
      destruct (snd e); cbn [length]; lia. }
    specialize (H (newWorld server)).
    unfold getCacheSize in H at 2. simpl in H. rewrite map_size_empty in H. lia.
  - intros w u ds. unfold getCacheSize.
    destruct (publishDiagnostics_frame u ds w) as (-> & _).
    rewrite map_size_insert. by destruct (cache (dc w) !! u).
Qed.

(** *** Deadlines *)

Lemma deadlinesAhead_new server : deadlinesAhead (newWorld server).
Proof. intros c u dl H. simpl in H. by rewrite lookup_nil in H. Qed.

Lemma deadlinesAhead_advance d w :
  deadlinesAhead w -> deadlinesAhead (advance d w).
Proof.
  intros _ c u dl H. rewrite advance_lookup in H.
  destruct (advance_frame d w) as (_ & _ & -> & _).
  unfold timedOut, expired in H.
  destruct (calls w !! c) as [[u' dl'| |]|]; try done.
  destruct (dl' <=? now w + d)%N eqn:E; [done |].
  injection H as -> ->. by apply N.leb_gt in E.
Qed.

Lemma deadlinesAhead_act a w : deadlinesAhead w -> deadlinesAhead (act a w).
Proof.
  intros Hw c u dl H. destruct (act_frame a w) as [-> _].
  destruct a as [u' f | u' ds | u' |]; unfold act in H.
  - destruct (decide (f = true \/ cache (dc w) !! u' = None)) as [Hmiss | Hhit].
    + rewrite getDiagnostics_waits in H by done. simpl in H.
      apply lookup_snoc_Some in H as [[_ H] | [_ H]]; [by eapply Hw |].
      injection H as <- <-. lia.
    + destruct f; [tauto |].
      destruct (cache (dc w) !! u') as [ds|] eqn:Hc; [| tauto].
      rewrite (getDiagnostics_cached _ _ ds) in H by done. simpl in H.
      apply lookup_snoc_Some in H as [[_ H] | [_ H]]; [by eapply Hw | done].
  - rewrite publishDiagnostics_lookup in H.
    destruct (_ && _); [done | by eapply Hw].
  - by eapply Hw.
  - by eapply Hw.
Qed.

Lemma deadlinesAhead_run script w :
  deadlinesAhead w -> deadlinesAhead (run w script).
Proof.
  revert w. induction script as [|e script IH]; intros w Hw; [done |].
  cbn [run foldl]. apply IH. unfold step.
  by apply deadlinesAhead_act, deadlinesAhead_advance.
Qed.

(** X10.  No call hangs and no call fails: 5000 ms after it was made, a
    call has returned, with a pushed payload or with the empty sequence,
    whatever happened in between. *)
Theorem every_call_returns_within_the_wait
    server script u (forceRefresh : bool) later :
  (5000 <= duration later)%N ->
  exists ds,
    calls (run (fst (getDiagnostics u forceRefresh (run (newWorld server) script)))
               later)
      !! snd (getDiagnostics u forceRefresh (run (newWorld server) script))
    = Some (Returned ds).
Proof.
  intros Hlong. set (w := run (newWorld server) script).
  assert (Hwf : registeredAwait (fst (getDiagnostics u forceRefresh w)))
    by apply registeredAwait_get, registeredAwait_run, registeredAwait_new.
  assert (Hda : deadlinesAhead (fst (getDiagnostics u forceRefresh w)))
    by apply (deadlinesAhead_act (Get u forceRefresh)), deadlinesAhead_run,
             deadlinesAhead_new.
  destruct (decide (forceRefresh = true \/ cache (dc w) !! u = None))
    as [Hmiss | Hhit].
  - assert (Hc : calls (fst (getDiagnostics u forceRefresh w))
                   !! snd (getDiagnostics u forceRefresh w)
                 = Some (Waiting u (now w + 5000))).
    { rewrite getDiagnostics_waits by done. simpl. by rewrite list_lookup_middle. }
    assert (Hnow : now (fst (getDiagnostics u forceRefresh w)) = now w).
    { rewrite getDiagnostics_waits by done. done. }
    destruct (result_of_wait later _ _ _ _ Hwf Hc) as [H | [H | (d & ds & _ & H)]].
    + exfalso. apply (deadlinesAhead_run later _ Hda) in H.
      destruct (run_frame later (fst (getDiagnostics u forceRefresh w))) as [Hn _].
      rewrite Hn, Hnow in H. lia.
    + by exists [].
    + by exists ds.
  - destruct forceRefresh; [tauto |].
    destruct (cache (dc w) !! u) as [ds|] eqn:Hcache; [| tauto].
    exists ds. apply run_settled; [| done].
    rewrite (getDiagnostics_cached _ _ ds) by done. simpl.
    by rewrite list_lookup_middle.
Qed.

(** *** Waiters that were dropped *)

Lemma getDiagnostics_waiters u (f : bool) w u' :
  waitersOf (fst (getDiagnostics u f w)) u' = waitersOf w u' \/
  waitersOf (fst (getDiagnostics u f w)) u' = waitersOf w u' ++ [length (calls w)].
Proof.
  destruct (decide (f = true \/ cache (dc w) !! u = None)) as [Hmiss | Hhit].
  - destruct (decide (u = u')) as [<- | Hne].
    + right. by destruct (getDiagnostics_registers u f w Hmiss) as (_ & _ & ->).
    + left. rewrite getDiagnostics_waits by done. unfold waitersOf.
      cbn [fst dc pendingWaits]. by rewrite lookup_insert_ne.
  - destruct f; [tauto |].
    destruct (cache (dc w) !! u) as [ds|] eqn:Hc; [| tauto].
    rewrite (getDiagnostics_cached _ _ ds) by done. by left.
Qed.

Lemma act_unregistered a w c u :
  (c < length (calls w))%nat -> c ∉ waitersOf w u -> c ∉ waitersOf (act a w) u.
Proof.
  intros Hlt Hout. destruct a as [u' f | u' ds | u' |]; unfold act; [| | | done].
  - destruct (getDiagnostics_waiters u' f w u) as [-> | ->]; [done |].
    intros Hin. apply elem_of_app in Hin as [Hin | Hin]; [done |].
    apply list_elem_of_singleton in Hin. lia.
  - unfold waitersOf. rewrite publishDiagnostics_pending.
    case_decide; [apply not_elem_of_nil | done].
  - unfold waitersOf. simpl.
    destruct (decide (u' = u)) as [-> | Hne].
    + rewrite lookup_delete_eq. apply not_elem_of_nil.
    + by rewrite lookup_delete_ne.
Qed.

Lemma advance_unregistered d w c u :
  c ∉ waitersOf w u -> c ∉ waitersOf (advance d w) u.
Proof.
  intros Hout. unfold waitersOf.
  destruct (advance_pending d w u) as [-> | ->]; [apply not_elem_of_nil | done].
Qed.

(** A suspended caller outside the waiter list of its URI is out of reach of
    every push. *)
Lemma dropped_waiter later w c u dl :
  registeredAwait w ->
  calls w !! c = Some (Waiting u dl) ->
  c ∉ waitersOf w u ->
  calls (run w later) !! c = Some (Waiting u dl) \/
  calls (run w later) !! c = Some (Returned []).
Proof.
  revert w. induction later as [|e later IH]; intros w Hwf Hc Hout; [by left |].
  cbn [run foldl]. fold (run (step w e) later).
  assert (Hadv : calls (advance (fst e) w) !! c
                 = timedOut (now w + fst e) (Some (Waiting u dl))).
  { by rewrite advance_lookup, Hc. }
  unfold timedOut, expired in Hadv.
  destruct (dl <=? now w + fst e)%N.
  - right. apply run_settled; [| done]. unfold step.
    rewrite act_settled; [done | by rewrite Hadv | by rewrite Hadv].
  - assert (Hwf' : registeredAwait (advance (fst e) w))
      by by apply registeredAwait_advance.
    assert (Hout' : c ∉ waitersOf (advance (fst e) w) u)
      by by apply advance_unregistered.
    assert (Hstay : calls (step w e) !! c = Some (Waiting u dl)).
    { unfold step. destruct (publishes u (snd e)) eqn:Hpub.
      - destruct e as [d [u' f | u' ds | u' |]]; simpl in Hpub; try done.
        apply String.eqb_eq in Hpub as ->. cbn [fst snd act] in *.
        rewrite publishDiagnostics_lookup, Hadv. simpl.
        by rewrite bool_decide_eq_false_2.
      - by eapply act_waiting. }
    apply IH; [by apply registeredAwait_step | done |].
    unfold step. apply act_unregistered; [| done].
    eapply lookup_lt_Some. exact Hadv.
Qed.

(** X11.  A caller that is still suspended but whose resolve function is no
    longer in the waiter list of its URI is never resolved by a push: it
    stays suspended until its deadline and then returns the empty sequence,
    whatever is pushed meanwhile. *)
Theorem dropped_waiter_returns_empty server script c u dl later :
  calls (run (newWorld server) script) !! c = Some (Waiting u dl) ->
  c ∉ waitersOf (run (newWorld server) script) u ->
  (calls (run (run (newWorld server) script) later) !! c = Some (Waiting u dl) \/
   calls (run (run (newWorld server) script) later) !! c = Some (Returned [])) /\
  ((dl <= now (run (newWorld server) script) + duration later)%N ->
   calls (run (run (newWorld server) script) later) !! c = Some (Returned [])).
Proof.
  intros Hc Hout. set (w := run (newWorld server) script) in *.
  assert (Hwf : registeredAwait w)
    by apply registeredAwait_run, registeredAwait_new.
  pose proof (dropped_waiter later w c u dl Hwf Hc Hout) as Hcases.
  split; [done |]. intros Hdl.
  destruct Hcases as [H | H]; [| done]. exfalso.
  assert (Hda : deadlinesAhead (run w later))
    by apply deadlinesAhead_run, deadlinesAhead_run, deadlinesAhead_new.
  apply Hda in H. destruct (run_frame later w) as [Hn _]. rewrite Hn in H. lia.
Qed.

(** X12.  When the wait of one caller elapses, the [catch] block deletes the
    whole waiter list of the URI: a second caller for the same URI whose own
    deadline is later stays suspended but is dropped, the next push does not
    resolve it, and it returns the empty sequence at its own deadline. *)
Theorem elapsed_wait_drops_later_callers
    server script c1 c2 u dl1 dl2 d :
  calls (run (newWorld server) script) !! c1 = Some (Waiting u dl1) ->
  calls (run (newWorld server) script) !! c2 = Some (Waiting u dl2) ->
  (dl1 <= now (run (newWorld server) script) + d)%N ->
  (now (run (newWorld server) script) + d < dl2)%N ->
  let w' := advance d (run (newWorld server) script) in
  calls w' !! c1 = Some (Returned []) /\
  calls w' !! c2 = Some (Waiting u dl2) /\
  waitersOf w' u = [] /\
  (forall ds, calls (publishDiagnostics u ds w') !! c2 = Some (Waiting u dl2)) /\
  (forall later,
     (dl2 <= now w' + duration later)%N ->
     calls (run w' later) !! c2 = Some (Returned [])).
Proof.
  intros Hc1 Hc2 Hdl1 Hdl2 w'. set (w := run (newWorld server) script) in *.
  assert (Hwf : registeredAwait w')
    by apply registeredAwait_advance, registeredAwait_run, registeredAwait_new.
  assert (Hgone : waitersOf w' u = []).
  { unfold waitersOf. subst w'. by rewrite (advance_discards d w c1 u dl1). }
  assert (Hc2' : calls w' !! c2 = Some (Waiting u dl2)).
  { subst w'. rewrite advance_lookup, Hc2. unfold timedOut, expired.
    destruct (dl2 <=? now w + d)%N eqn:E; [| done].
    apply N.leb_le in E. lia. }
  split.
  { subst w'. rewrite advance_lookup, Hc1. unfold timedOut, expired.
    destruct (dl1 <=? now w + d)%N eqn:E; [done |].
    apply N.leb_gt in E. lia. }
  split; [done |]. split; [done |]. split.
  { intros ds. rewrite publishDiagnostics_lookup, Hc2', Hgone.
    rewrite bool_decide_eq_false_2 by apply not_elem_of_nil. done. }
  intros later Hlate.
  destruct (dropped_waiter later w' c2 u dl2 Hwf Hc2') as [H | H]; [| | done].
  { rewrite Hgone. apply not_elem_of_nil. }
  exfalso.
  assert (Hda : deadlinesAhead (run w' later)).
  { apply deadlinesAhead_run. subst w'.
    apply deadlinesAhead_advance, deadlinesAhead_run, deadlinesAhead_new. }
  apply Hda in H. destruct (run_frame later w') as [Hn _]. rewrite Hn in H. lia.
Qed.

(** *** Separate URIs, and calls that follow one another *)

(** X13.  A call, a push or a [clearForFile] for one URI leaves the cached
    entry and the waiter list of every other URI as they are, and resolves
    no caller that waits on another URI. *)
Theorem other_uris_untouched server script a u u' :
  uriOf a = Some u ->
  u <> u' ->
  cache (dc (act a (run (newWorld server) script))) !! u'
  = cache (dc (run (newWorld server) script)) !! u' /\
  waitersOf (act a (run (newWorld server) script)) u'
  = waitersOf (run (newWorld server) script) u' /\
  (forall c, awaiting (run (newWorld server) script) c u' ->
     calls (act a (run (newWorld server) script)) !! c
     = calls (run (newWorld server) script) !! c).
Proof.
  intros Ha Hne. set (w := run (newWorld server) script).
  assert (Hwf : registeredAwait w)
    by apply registeredAwait_run, registeredAwait_new.
  assert (Heqb : String.eqb u u' = false) by by apply String.eqb_neq.
  split; [| split].
  - rewrite act_cache.
    destruct a as [x f | x ds | x |]; simpl in Ha; try done;
      injection Ha as ->; simpl; rewrite ?Heqb; try done.
    destruct f; by rewrite ?Heqb.
  - destruct a as [x f | x ds | x |]; simpl in Ha; try done;
      injection Ha as ->; unfold act.
    + destruct (decide (f = true \/ cache (dc w) !! u = None)) as [Hmiss | Hhit].
      * rewrite getDiagnostics_waits by done. unfold waitersOf.
        cbn [fst dc pendingWaits]. by rewrite lookup_insert_ne.
      * destruct f; [tauto |].
        destruct (cache (dc w) !! u) as [ds|] eqn:Hc; [| tauto].
        by rewrite (getDiagnostics_cached _ _ ds).
    + unfold waitersOf. rewrite publishDiagnostics_pending.
      by rewrite decide_False.
    + unfold waitersOf. simpl. by rewrite lookup_delete_ne.
  - intros c [dl Hc]. rewrite Hc. eapply act_waiting; [done | done |].
    destruct a as [x f | x ds | x |]; simpl in Ha; try done.
    injection Ha as ->. done.
Qed.



(** *** Where returned diagnostics come from *)

Lemma cacheAfter_pushed u script (entry : option (list Diagnostic)) ds :
  cacheAfter u script entry = Some ds ->
  entry = Some ds \/ exists d, (d, Publish u ds) ∈ script.
Proof.
  revert entry. induction script as [|[d a] script IH]; intros entry H;
    [by left |].
  unfold cacheAfter in H. cbn [foldl snd] in H.
  fold (cacheAfter u script (cacheStep u entry a)) in H.
  destruct (IH _ H) as [Hstep | [d' Hin]].
  - destruct a as [x f | x ds' | x |]; simpl in Hstep.
    + destruct f; [| by left].
      destruct (String.eqb x u); [done | by left].
    + destruct (String.eqb_spec x u) as [-> | Hne]; [| by left].
      injection Hstep as ->. right. exists d. apply elem_of_cons. by left.
    + destruct (String.eqb x u); [done | by left].
    + by left.
  - right. exists d'. apply elem_of_cons. by right.
Qed.

(** X22.  The cache makes nothing up: what a call returns is the empty
    sequence or the payload of a push for the URI it asked for, received
    before the call or after it. *)
Theorem returned_diagnostics_were_pushed
    server script u (forceRefresh : bool) later ds :
  calls (run (fst (getDiagnostics u forceRefresh (run (newWorld server) script)))
             later)
    !! snd (getDiagnostics u forceRefresh (run (newWorld server) script))
  = Some (Returned ds) ->
  ds = [] \/ exists d, (d, Publish u ds) ∈ script ++ later.
Proof.
  set (w := run (newWorld server) script). intros Hret.
  assert (Hwf : registeredAwait (fst (getDiagnostics u forceRefresh w)))
    by apply registeredAwait_get, registeredAwait_run, registeredAwait_new.
  destruct (decide (forceRefresh = true \/ cache (dc w) !! u = None))
    as [Hmiss | Hhit].
  - assert (Hc : calls (fst (getDiagnostics u forceRefresh w))
                   !! snd (getDiagnostics u forceRefresh w)
                 = Some (Waiting u (now w + 5000))).
    { rewrite getDiagnostics_waits by done. simpl. by rewrite list_lookup_middle. }
    destruct (result_of_wait later _ _ _ _ Hwf Hc) as [H | [H | (d & ds' & Hin & H)]].
    + congruence.
    + left. congruence.
    + right. exists d. apply elem_of_app. right.
      rewrite H in Hret. by injection Hret as <-.
  - destruct forceRefresh; [tauto |].
    destruct (cache (dc w) !! u) as [ds0|] eqn:Hcache; [| tauto].
    assert (Hstay : calls (run (fst (getDiagnostics u false w)) later)
                      !! snd (getDiagnostics u false w)
                    = Some (Returned ds0)).
    { apply run_settled; [| done].
      rewrite (getDiagnostics_cached _ _ ds0) by done. simpl.
      by rewrite list_lookup_middle. }
    rewrite Hstay in Hret. injection Hret as <-.
    subst w. rewrite cache_after_run in Hcache. simpl in Hcache.
    rewrite lookup_empty in Hcache.
    destruct (cacheAfter_pushed u script None ds0 Hcache) as [? | [d Hin]];
      [done |].
    right. exists d. apply elem_of_app. by left.
Qed.

End DiagnosticsMore.

(** ** The severity counts of the get_diagnostics tool *)

Section ToolMore.
Import LSP Diagnostics DiagnosticsTool.

Variable sev : DiagnosticSeverity.

Lemma countOne_named cs d :
  errors (countOne sev cs d)
  = (errors cs + named "error" [severityName sev d])%nat /\
  warnings (countOne sev cs d)
  = (warnings cs + named "warning" [severityName sev d])%nat /\
  information (countOne sev cs d)
  = (information cs + named "information" [severityName sev d])%nat /\
  hints (countOne sev cs d)
  = (hints cs + named "hint" [severityName sev d])%nat /\
  (named "error" [severityName sev d] + named "warning" [severityName sev d]
   + named "information" [severityName sev d] + named "hint" [severityName sev d]
   + named "unknown" [severityName sev d] = 1)%nat.
Proof.
  unfold countOne, severityName, named.
  destruct (severity d) as [s|]; [| simpl; repeat split; lia].
  destruct (s =? Error sev); [simpl; repeat split; lia |].
  destruct (s =? Warning sev); [simpl; repeat split; lia |].
  destruct (s =? Information sev); [simpl; repeat split; lia |].
  destruct (s =? Hint sev); simpl; repeat split; lia.
Qed.

Lemma named_cons name x names :
  named name (x :: names) = (named name [x] + named name names)%nat.
Proof. unfold named. simpl. destruct (String.eqb name x); simpl; lia. Qed.

Lemma foldl_countOne ds cs :
  errors (foldl (countOne sev) cs ds)
  = (errors cs + named "error" (formattedSeverities sev ds))%nat /\
  warnings (foldl (countOne sev) cs ds)
  = (warnings cs + named "warning" (formattedSeverities sev ds))%nat /\
  information (foldl (countOne sev) cs ds)
  = (information cs + named "information" (formattedSeverities sev ds))%nat /\
  hints (foldl (countOne sev) cs ds)
  = (hints cs + named "hint" (formattedSeverities sev ds))%nat.
Proof.
  revert cs. induction ds as [|d ds IH]; intros cs.
  - unfold named. simpl. repeat split; lia.
  - cbn [foldl]. destruct (IH (countOne sev cs d)) as (-> & -> & -> & ->).
    destruct (countOne_named cs d) as (-> & -> & -> & -> & _).
    unfold formattedSeverities. rewrite fmap_cons.
    rewrite !(named_cons _ (severityName sev d) (severityName sev <$> ds)).
    repeat split; lia.
Qed.

(** X16.  Each count of [diagnostic_count] is the number of entries of the
    formatted list that carry the corresponding severity name: the switch
    that counts and the chain of conditions that names agree, whatever the
    four severity constants are. *)
Theorem counts_agree_with_names (ds : list Diagnostic) :
  errors (countBySeverity sev ds) = named "error" (formattedSeverities sev ds) /\
  warnings (countBySeverity sev ds) = named "warning" (formattedSeverities sev ds) /\
  information (countBySeverity sev ds)
  = named "information" (formattedSeverities sev ds) /\
  hints (countBySeverity sev ds) = named "hint" (formattedSeverities sev ds).
Proof.
  unfold countBySeverity.
  destruct (foldl_countOne ds noCounts) as (-> & -> & -> & ->). done.
Qed.

Lemma counts_names_helper (ds : list Diagnostic) :
  (errors (countBySeverity sev ds) + warnings (countBySeverity sev ds)
   + information (countBySeverity sev ds) + hints (countBySeverity sev ds)
   + named "unknown" (formattedSeverities sev ds) = length ds)%nat.
Proof.
  unfold countBySeverity.
  destruct (foldl_countOne ds noCounts) as (-> & -> & -> & ->). simpl.
  induction ds as [|d ds IH]; [done |].
  unfold formattedSeverities in *. rewrite fmap_cons.
  rewrite !(named_cons _ (severityName sev d) (severityName sev <$> ds)).
  destruct (countOne_named noCounts d) as (_ & _ & _ & _ & Hone).
  cbn [length]. lia.
Qed.

(** X17.  Every diagnostic is listed once, and it is counted once unless its
    severity is missing or is none of the four constants, in which case it
    is listed as unknown and counted nowhere: the four counts and the
    unknown entries add up to the number of diagnostics. *)
Theorem counts_and_unknown_add_up (ds : list Diagnostic) :
  length (formattedSeverities sev ds) = length ds /\
  (errors (countBySeverity sev ds) + warnings (countBySeverity sev ds)
   + information (countBySeverity sev ds) + hints (countBySeverity sev ds)
   + named "unknown" (formattedSeverities sev ds) = length ds)%nat.
Proof.
  split; [apply length_fmap | apply counts_names_helper].
Qed.

End ToolMore.

(** ** The open-document tracker, from its unit tests *)

Section TrackerMore.
Import Tracker TrackerNotions.

Implicit Types (t : FileTracker) (p : string) (d : OpenDocument) (ops : list op).

Lemma opensSent_app evs1 evs2 :
  opensSent (evs1 ++ evs2) = (opensSent evs1 + opensSent evs2)%nat.
Proof. unfold opensSent. by rewrite List.filter_app, length_app. Qed.

Lemma closedUris_app evs1 evs2 :
  closedUris (evs1 ++ evs2) = closedUris evs1 ++ closedUris evs2.
Proof. unfold closedUris. apply omap_app. Qed.

Lemma callbackCalls_app evs1 evs2 :
  callbackCalls (evs1 ++ evs2) = callbackCalls evs1 ++ callbackCalls evs2.
Proof. unfold callbackCalls. apply omap_app. Qed.

Lemma closeAll_fold (l : list (string * OpenDocument)) t :
  exists evs,
    trace (foldl (fun t e => closeTracked (fst e) (snd e) t) t l) = trace t ++ evs /\
    closedUris evs = (fun e => docUri (snd e)) <$> l /\
    callbackCalls evs
    = match onClosed t with
      | Some k => (fun e => (k, docUri (snd e))) <$> l
      | None => []
      end /\
    opensSent evs = 0%nat.
Proof.
  revert t. induction l as [|e l IH]; intros t.
  - exists []. simpl. rewrite app_nil_r. by destruct (onClosed t).
  - cbn [foldl]. destruct (IH (closeTracked (fst e) (snd e) t))
      as (evs & Htr & Hcl & Hcb & Hop).
    exists (([DidClose (docUri (snd e))] ++ notifyClosed t (docUri (snd e))) ++ evs).
    split; [rewrite Htr; cbn [trace closeTracked]; by rewrite <- !app_assoc |].
    rewrite !closedUris_app, !callbackCalls_app, !opensSent_app, Hcl, Hcb, Hop.
    cbn [onClosed closeTracked].
    unfold notifyClosed. rewrite !fmap_cons.
    destruct (onClosed t) as [k|]; done.
Qed.

(** X18.  [closeAll] sends one close notification for every tracked
    document and invokes the registered callback once for each, with the
    document's URI; it sends no open notification and leaves no document
    tracked. *)
Theorem closeAll_closes_every_document t :
  exists evs,
    trace (closeAll t) = trace t ++ evs /\
    closedUris evs = (fun e => docUri (snd e)) <$> map_to_list (openFiles t) /\
    length (closedUris evs) = size (openFiles t) /\
    (forall k, onClosed t = Some k ->
       callbackCalls evs
       = (fun e => (k, docUri (snd e))) <$> map_to_list (openFiles t)) /\
    (onClosed t = None -> callbackCalls evs = []) /\
    opensSent evs = 0%nat /\
    openFiles (closeAll t) = ∅ /\
    (forall p, isFileOpen p (closeAll t) = false).
Proof.
  destruct (closeAll_fold (map_to_list (openFiles t)) t)
    as (evs & Htr & Hcl & Hcb & Hop).
  exists evs. split; [done |]. split; [done |].
  split; [by rewrite Hcl, length_fmap, length_map_to_list |].
  split; [intros k Hk; by rewrite Hk in Hcb |].
  split; [intros Hk; by rewrite Hk in Hcb |].
  split; [done |]. split; [done |].
  intros p. unfold isFileOpen, closeAll. simpl. rewrite lookup_empty.
  apply bool_decide_eq_false_2. by intros [? ?].
Qed.

(** X19.  A document that was closed can be opened again: the next
    [ensureFileOpen] of its path sends a new open notification, with nothing
    evicted, and the document is tracked again. *)
Theorem reopen_after_close cap ops p text :
  (0 < cap)%nat ->
  is_Some (openFiles (run (newTracker cap) ops) !! p) ->
  let t1 := closeFile p (run (newTracker cap) ops) in
  isFileOpen p t1 = false /\
  trace (fst (ensureFileOpen p (Some text) t1))
  = trace t1 ++ [DidOpen (pathToUri p) (languageIdOf p) 1 text] /\
  isFileOpen p (fst (ensureFileOpen p (Some text) t1)) = true /\
  snd (ensureFileOpen p (Some text) t1) = inl (pathToUri p).
Proof.
  intros Hpos [d Hp] t1. set (t := run (newTracker cap) ops) in *.
  assert (Ht1 : t1 = closeTracked p d t).
  { subst t1. unfold closeFile. by rewrite Hp. }
  assert (Hgone : openFiles t1 !! p = None).
  { rewrite Ht1. simpl. apply lookup_delete_eq. }
  assert (Hsize : (size (openFiles t1) < maxOpenFiles t1)%nat).
  { rewrite Ht1. simpl.
    rewrite map_size_delete_Some by by rewrite Hp.
    pose proof (size_run cap ops Hpos) as Hle. fold t in Hle.
    pose proof (run_capacity ops (newTracker cap)) as Hcap. fold t in Hcap.
    simpl in Hcap. rewrite Hcap.
    assert (size (openFiles t) <> 0%nat).
    { apply map_size_non_empty_iff. intros Hempty.
      by rewrite Hempty, lookup_empty in Hp. }
    lia. }
  split.
  { unfold isFileOpen. rewrite Hgone. apply bool_decide_eq_false_2. by intros [? ?]. }
  rewrite (ensureFileOpen_below_capacity t1 p text Hgone Hsize).
  split; [done |]. split; [| done].
  unfold isFileOpen. simpl. rewrite lookup_insert_eq.
  apply bool_decide_eq_true_2. by eexists.
Qed.

(** *** Opens, closes and callbacks in balance *)

Lemma closeTracked_balance p d t :
  openFiles t !! p = Some d ->
  opensSent (trace (closeTracked p d t)) = opensSent (trace t) /\
  length (closedUris (trace (closeTracked p d t)))
  = S (length (closedUris (trace t))) /\
  (length (callbackCalls (trace (closeTracked p d t)))
   <= S (length (callbackCalls (trace t))))%nat /\
  size (openFiles (closeTracked p d t)) = pred (size (openFiles t)) /\
  size (openFiles t) <> 0%nat.
Proof.
  intros Hp. unfold closeTracked. cbn [trace openFiles].
  rewrite !opensSent_app, !closedUris_app, !callbackCalls_app, !length_app.
  unfold notifyClosed. split; [| split; [| split; [| split]]].
  - destruct (onClosed t); simpl; unfold opensSent; simpl; lia.
  - destruct (onClosed t); simpl; lia.
  - destruct (onClosed t); simpl; lia.
  - apply map_size_delete_Some. by rewrite Hp.
  - apply map_size_non_empty_iff. intros He. by rewrite He, lookup_empty in Hp.
Qed.

Lemma balanced_closeTracked p d t :
  openFiles t !! p = Some d -> balanced t -> balanced (closeTracked p d t).
Proof.
  intros Hp [Hb Hc].
  destruct (closeTracked_balance p d t Hp) as (Ho & Hcl & Hcb & Hsz & Hne).
  split; [rewrite Ho, Hcl, Hsz; lia | lia].
Qed.

Lemma balanced_apply t o : balanced t -> balanced (apply t o).
Proof.
  intros Hbal. destruct o as [p [text|] | p | | k]; unfold apply.
  - unfold ensureFileOpen.
    destruct (openFiles t !! p) as [d|] eqn:Hp; cbn [fst].
    + destruct Hbal as [Hb Hc]. split; [| done]. cbn [trace openFiles].
      rewrite map_size_insert_Some by by rewrite Hp. done.
    + assert (H1 : exists t1,
                (if (maxOpenFiles t <=? size (openFiles t))%nat
                 then evictLeastRecentlyUsed t else t) = t1 /\
                balanced t1 /\ openFiles t1 !! p = None).
      { destruct (maxOpenFiles t <=? size (openFiles t))%nat; [| by exists t].
        unfold evictLeastRecentlyUsed.
        destruct (leastRecentlyUsed (openFiles t)) as [[v dv]|] eqn:Hv;
          [| by exists t].
        apply leastRecentlyUsed_spec in Hv as [Hv _].
        eexists. split; [done |]. split; [by apply balanced_closeTracked |].
        simpl. apply lookup_delete_None. by right. }
      destruct H1 as (t1 & -> & [Hb Hc] & Hp1).
      split; cbn [trace openFiles].
      * rewrite opensSent_app, closedUris_app, length_app.
        rewrite map_size_insert_None by done.
        unfold opensSent at 2. simpl. lia.
      * rewrite closedUris_app, callbackCalls_app, !length_app. simpl. lia.
  - done.
  - unfold closeFile. destruct (openFiles t !! p) as [d|] eqn:Hp; [| done].
    by apply balanced_closeTracked.
  - destruct (closeAll_fold (map_to_list (openFiles t)) t)
      as (evs & Htr & Hcl & Hcb & Hop).
    destruct Hbal as [Hb Hc]. unfold closeAll, balanced. cbn [trace openFiles].
    rewrite Htr, opensSent_app, closedUris_app, callbackCalls_app, !length_app.
    rewrite Hop, Hcl, Hcb, length_fmap, length_map_to_list, map_size_empty.
    split; [lia |].
    destruct (onClosed t); simpl;
      rewrite ?length_fmap, ?length_map_to_list; lia.
  - done.
Qed.

(** X20.  At any time the open notifications sent so far are as many as the
    close notifications sent plus the documents tracked: no document is
    opened twice without a close in between and none is dropped without one.
    The callback has never been invoked more often than documents were
    closed. *)
Theorem opens_and_closes_balance cap ops :
  opensSent (trace (run (newTracker cap) ops))
  = (length (closedUris (trace (run (newTracker cap) ops)))
     + size (openFiles (run (newTracker cap) ops)))%nat /\
  (length (callbackCalls (trace (run (newTracker cap) ops)))
   <= length (closedUris (trace (run (newTracker cap) ops))))%nat.
Proof.
  change (balanced (run (newTracker cap) ops)).
  induction ops as [|o ops IH] using rev_ind.
  - split; [simpl; by rewrite map_size_empty | done].
  - rewrite run_snoc. by apply balanced_apply.
Qed.

(** The effects of closing a tracked document (shared with the statement
    about [closeFile] above). *)
Lemma closeFile_tracked_trace cap ops p d :
  openFiles (run (newTracker cap) ops) !! p = Some d ->
  trace (closeFile p (run (newTracker cap) ops))
  = trace (run (newTracker cap) ops)
      ++ [DidClose (pathToUri p)]
      ++ notifyClosed (run (newTracker cap) ops) (pathToUri p).
Proof.
  intros Hp. unfold closeFile. rewrite Hp. unfold closeTracked. simpl.
  destruct (proj2 (follows_run cap ops) p d Hp) as [-> _]. done.
Qed.

Lemma apply_onClosed t o :
  onClosed (apply t o)
  = match o with OnFileClosed k => Some k | _ => onClosed t end.
Proof.
  destruct o as [p disk | p | | k]; unfold apply; [| | | done].
  - unfold ensureFileOpen. destruct disk as [text|]; [| done].
    destruct (openFiles t !! p); [done |]. cbn [fst onClosed].
    destruct (maxOpenFiles t <=? size (openFiles t))%nat; [| done].
    apply evict_frame.
  - unfold closeFile. by destruct (openFiles t !! p).
  - unfold closeAll. simpl. apply closeAll_fold_frame.
Qed.

(** X21.  The callback slot holds the callback of the last [onFileClosed],
    whenever it was registered, before or after the documents were opened;
    the close of a tracked document invokes that callback, once, and no
    earlier one. *)
Theorem last_registration_wins cap ops p :
  onClosed (run (newTracker cap) ops) = lastRegistered ops /\
  (forall d k,
     openFiles (run (newTracker cap) ops) !! p = Some d ->
     lastRegistered ops = Some k ->
     callbackCalls (trace (closeFile p (run (newTracker cap) ops)))
     = callbackCalls (trace (run (newTracker cap) ops)) ++ [(k, pathToUri p)]).
Proof.
  assert (Hlast : onClosed (run (newTracker cap) ops) = lastRegistered ops).
  { induction ops as [|o ops IH] using rev_ind; [done |].
    rewrite run_snoc, apply_onClosed. unfold lastRegistered in *.
    rewrite omap_app. destruct o as [? ? | ? | | k]; simpl;
      rewrite ?app_nil_r; try done.
    by rewrite last_snoc. }
  split; [done |]. intros d k Hp Hk.
  rewrite (closeFile_tracked_trace cap ops p d Hp), callbackCalls_app.
  f_equal. rewrite callbackCalls_app. simpl.
  unfold notifyClosed. rewrite Hlast, Hk. done.
Qed.

End TrackerMore.

(** ** The further properties at concrete inputs *)

Section MoreHierarchyWitnesses.
Import JS LSP Hierarchy HierarchyFixtures HierarchyNotions MoreFixtures.

Lemma prepare_rejection_propagates_witness :
  snd (fetchCalls prepareFails)
  = Rejected (RemoteError (-32603) "Internal error") /\
  length (sent (fst (fetchCalls prepareFails))) = 1%nat.
Proof.
  destruct (prepare_rejection_propagates prepareFails
              "textDocument/prepareCallHierarchy"
              "callHierarchy/incomingCalls" "callHierarchy/outgoingCalls"
              "file:///test.cpp" at105
              (RemoteError (-32603) "Internal error") eq_refl)
    as (Hres & Hsent & _).
  split; [exact Hres |]. unfold fetchCalls. rewrite Hsent. reflexivity.
Defined.

Lemma fulfilled_prepare_never_rejects_witness :
  snd (fetchCalls bothRelationsFail)
  = Fulfilled (Some {| item := mockItem; incoming := VArr [];
                       outgoing := VArr [] |}).
Proof.
  destruct (fulfilled_prepare_never_rejects bothRelationsFail
              "textDocument/prepareCallHierarchy"
              "callHierarchy/incomingCalls" "callHierarchy/outgoingCalls"
              "file:///test.cpp" at105 mockItem eq_refl) as [_ Hboth].
  apply Hboth; [reflexivity | discriminate | reflexivity | reflexivity].
Defined.

Lemma single_item_is_anchor_witness :
  exists res, snd (fetchCalls nullRelations) = Fulfilled (Some res) /\
              item res = mockItem.
Proof.
  destruct (single_item_is_anchor nullRelations
              "textDocument/prepareCallHierarchy"
              "callHierarchy/incomingCalls" "callHierarchy/outgoingCalls"
              "file:///test.cpp" at105 mockItem eq_refl eq_refl eq_refl)
    as (res & Hres & Hitem & _).
  exists res. split; assumption.
Defined.

Lemma side_of_result_witness :
  exists res, snd (fetchCalls incomingFails) = Fulfilled (Some res) /\
              incoming res = VArr [] /\ outgoing res = VArr [callee].
Proof.
  destruct (side_of_result incomingFails
              "textDocument/prepareCallHierarchy"
              "callHierarchy/incomingCalls" "callHierarchy/outgoingCalls"
              "file:///test.cpp" at105 mockItem eq_refl eq_refl)
    as (res & Hres & Hin & _ & _ & Hout).
  - discriminate.
  - exists res. split; [exact Hres |]. split.
    + apply Hin. reflexivity.
    + apply (Hout (VArr [callee])); reflexivity.
Defined.

End MoreHierarchyWitnesses.

Section MoreDiagnosticsWitnesses.
Import LSP Diagnostics DiagnosticsFixtures DiagnosticsNotions DiagnosticsTool.
Import MoreFixtures.

Lemma cached_entry_returned_at_once_witness :
  calls (step (run freshWorld [(0%N, Publish testUri mockDiagnostics);
                               (7000%N, Get otherUri false)])
              (60000%N, Get testUri false))
    !! 1%nat
  = Some (Returned mockDiagnostics).
Proof.
  destruct (cached_entry_returned_at_once
              (fun _ => Rejected ConnectionClosed)
              [(0%N, Publish testUri mockDiagnostics);
               (7000%N, Get otherUri false)]
              testUri mockDiagnostics 60000%N eq_refl) as [H _].
  exact H.
Defined.

Lemma every_call_returns_within_the_wait_witness :
  exists ds,
    calls (run (fst (getDiagnostics testUri false freshWorld))
               [(2000%N, Publish otherUri mockDiagnostics); (3000%N, Idle)])
      !! 0%nat
    = Some (Returned ds).
Proof.
  apply (every_call_returns_within_the_wait
           (fun _ => Rejected ConnectionClosed) [] testUri false
           [(2000%N, Publish otherUri mockDiagnostics); (3000%N, Idle)]).
  vm_compute. discriminate.
Defined.

Lemma dropped_waiter_returns_empty_witness :
  calls (run (run freshWorld twoCallersThenClear)
             [(10%N, Publish testUri mockDiagnostics); (5000%N, Idle)])
    !! 0%nat
  = Some (Returned []).
Proof.
  destruct (dropped_waiter_returns_empty
              (fun _ => Rejected ConnectionClosed) twoCallersThenClear
              0%nat testUri 5000%N
              [(10%N, Publish testUri mockDiagnostics); (5000%N, Idle)])
    as [_ H].
  - reflexivity.
  - assert (E : waitersOf (run freshWorld twoCallersThenClear) testUri = [])
      by reflexivity.
    unfold freshWorld in E. rewrite E. apply not_elem_of_nil.
  - apply H. vm_compute. discriminate.
Defined.

Lemma elapsed_wait_drops_later_callers_witness :
  calls (advance 2000 (run freshWorld earlyAndLate)) !! 0%nat
    = Some (Returned []) /\
  calls (publishDiagnostics testUri mockDiagnostics
           (advance 2000 (run freshWorld earlyAndLate))) !! 1%nat
    = Some (Waiting testUri 8000) /\
  calls (run (advance 2000 (run freshWorld earlyAndLate))
             [(500%N, Publish testUri mockDiagnostics); (2500%N, Idle)]) !! 1%nat
    = Some (Returned []).
Proof.
  destruct (elapsed_wait_drops_later_callers
              (fun _ => Rejected ConnectionClosed) earlyAndLate
              0%nat 1%nat testUri 5000%N 8000%N 2000%N)
    as (H1 & _ & _ & Hpush & Hlate).
  - reflexivity.
  - reflexivity.
  - vm_compute. discriminate.
  - reflexivity.
  - split; [exact H1 |]. split; [exact (Hpush mockDiagnostics) |].
    apply Hlate. vm_compute. discriminate.
Defined.

Lemma other_uris_untouched_witness :
  cache (dc (act (ClearForFile otherUri)
               (run freshWorld [(0%N, Publish testUri mockDiagnostics)])))
    !! testUri
  = Some mockDiagnostics.
Proof.
  destruct (other_uris_untouched
              (fun _ => Rejected ConnectionClosed)
              [(0%N, Publish testUri mockDiagnostics)]
              (ClearForFile otherUri) otherUri testUri eq_refl)
    as (Hcache & _).
  - discriminate.
  - unfold freshWorld. rewrite Hcache. reflexivity.
Defined.

Lemma returned_diagnostics_were_pushed_witness :
  mockDiagnostics = [] \/
  exists d, (d, Publish testUri mockDiagnostics)
              ∈ [] ++ [(100%N, Publish testUri mockDiagnostics)].
Proof.
  apply (returned_diagnostics_were_pushed
           (fun _ => Rejected ConnectionClosed) [] testUri false
           [(100%N, Publish testUri mockDiagnostics)] mockDiagnostics).
  reflexivity.
Defined.

(** The counts of the tests: one error, one warning, one information, no
    hint. *)
Example counts_of_the_mock :
  countBySeverity lspSeverity mockDiagnostics
  = {| errors := 1; warnings := 1; information := 1; hints := 0 |} /\
  formattedSeverities lspSeverity mockDiagnostics
  = ["error"; "warning"; "information"].
Proof. split; reflexivity. Qed.

End MoreDiagnosticsWitnesses.

Section MoreTrackerWitnesses.
Import Tracker TrackerFixtures TrackerNotions.

Lemma reopen_after_close_witness :
  trace (fst (ensureFileOpen testFile (Some testContent)
                (closeFile testFile
                   (run (newTracker MAX_OPEN_FILES)
                        [EnsureFileOpen testFile (Some testContent)]))))
  = [DidOpen "file:///tmp/test.cpp" "cpp" 1 testContent;
     DidClose "file:///tmp/test.cpp";
     DidOpen "file:///tmp/test.cpp" "cpp" 1 testContent].
Proof.
  destruct (reopen_after_close MAX_OPEN_FILES
              [EnsureFileOpen testFile (Some testContent)] testFile testContent)
    as (_ & Htrace & _).
  - unfold MAX_OPEN_FILES. lia.
  - eexists. reflexivity.
  - rewrite Htrace. reflexivity.
Defined.

(** [closeAll] on three open documents (lines 260-281 of the tests). *)
Example closeAll_three_documents :
  length (callbackCalls
            (trace (run (newTracker MAX_OPEN_FILES)
                        [OnFileClosed 0;
                         EnsureFileOpen "/tmp/file1.cpp" (Some "int x;");
                         EnsureFileOpen "/tmp/file2.cpp" (Some "int y;");
                         EnsureFileOpen "/tmp/file3.cpp" (Some "int z;");
                         CloseAll])))
  = 3%nat.
Proof. vm_compute. reflexivity. Qed.

End MoreTrackerWitnesses.
